(** * Region allocator (k0ekk0ek/region): a shallow embedding of [region.c]

    The allocator keeps all of its administration inside the mapping it
    manages, and addresses everything by offset from the mapping's base.
    The embedding therefore models the mapping as an array of bytes placed at
    a base address, and every structure field of the C code as a load or a
    store at the field's byte offset.

    Target assumed throughout (the one the demo driver [alloc.c] runs on):
    LP64, little-endian; [uintptr_t], [size_t] and [intptr_t] are 8 bytes,
    [uint16_t] is 2 bytes, structures are laid out with natural alignment. *)

From Stdlib Require Import ZArith Lia Bool List String Ascii.
From stdpp Require Import base list gmap.
Import ListNotations.
Local Open Scope Z_scope.

(** ** Machine integers *)

Definition wordsize : Z := 2 ^ 64.

(** conversion to [uintptr_t] / [size_t] / [uint64_t] *)
Definition u64 (x : Z) : Z := x mod wordsize.

(** conversion to [intptr_t] *)
Definition s64 (x : Z) : Z :=
  let y := x mod wordsize in
  if y <? 2 ^ 63 then y else y - wordsize.

(** [~x] on a 64-bit unsigned operand *)
Definition not64 (x : Z) : Z := wordsize - 1 - u64 x.

Fixpoint ctz_pos (p : positive) : Z :=
  match p with
  | xO q => 1 + ctz_pos q
  | _ => 0
  end.

(** [__builtin_ctzll]; the result is undefined for 0 and the caller guards
    against it. *)
Definition ctzll (x : Z) : Z :=
  match x with
  | Zpos p => ctz_pos p
  | _ => 64
  end.

(** ** The mapping and the outcome of running code on it *)

(** The mapped block: [msize] bytes at address [base].  [bytes] is keyed by
    the offset from [base]; a byte that was never written reads as 0, as the
    pages of a fresh [ftruncate]d shared-memory object do. *)
Record mapping : Type := Mapping {
  base : Z;
  msize : Z;
  bytes : gmap Z Z
}.

Inductive outcome (A : Type) : Type :=
| Ok (a : A) (m : mapping)   (* returned normally *)
| AssertFail                 (* an assert() failed (build without NDEBUG) *)
| Undefined                  (* access outside the mapping, division by 0,
                                read outside a table *)
| OutOfFuel.                 (* a loop was still running when fuel ran out *)

Arguments Ok {A} a m.
Arguments AssertFail {A}.
Arguments Undefined {A}.
Arguments OutOfFuel {A}.

Definition M (A : Type) : Type := mapping -> outcome A.

Definition ret {A} (a : A) : M A := fun m => Ok a m.

Definition bind {A B} (c : M A) (k : A -> M B) : M B :=
  fun m =>
    match c m with
    | Ok a m' => k a m'
    | AssertFail => AssertFail
    | Undefined => Undefined
    | OutOfFuel => OutOfFuel
    end.

Notation "x <- c ;; k" := (bind c (fun x => k))
  (at level 100, c at next level, right associativity).
Notation "c ;;; k" := (bind c (fun _ => k))
  (at level 100, right associativity).

Definition undefined {A} : M A := fun _ => Undefined.
Definition out_of_fuel {A} : M A := fun _ => OutOfFuel.
Definition assert_fail {A} : M A := fun _ => AssertFail.

(** ** Memory accesses *)

Definition in_bounds (m : mapping) (p : Z) : bool :=
  (base m <=? p) && (p <? base m + msize m).

Definition load8 (p : Z) : M Z :=
  fun m =>
    if in_bounds m p
    then Ok (default 0 (bytes m !! (p - base m))) m
    else Undefined.

Definition store8 (p v : Z) : M unit :=
  fun m =>
    if in_bounds m p
    then Ok tt (Mapping (base m) (msize m)
                  (<[p - base m := v mod 256]> (bytes m)))
    else Undefined.

(** little-endian loads and stores of [n] bytes *)
Fixpoint load_le (n : nat) (p : Z) : M Z :=
  match n with
  | O => ret 0
  | S k =>
      b <- load8 p ;;
      r <- load_le k (p + 1) ;;
      ret (b + 256 * r)
  end.

Fixpoint store_le (n : nat) (p v : Z) : M unit :=
  match n with
  | O => ret tt
  | S k => store8 p v ;;; store_le k (p + 1) (v / 256)
  end.

Definition load16 : Z -> M Z := load_le 2.
Definition load64 : Z -> M Z := load_le 8.
Definition store16 (p v : Z) : M unit := store_le 2 p v.
Definition store64 (p v : Z) : M unit := store_le 8 p v.

Fixpoint memset (p v : Z) (n : nat) : M unit :=
  match n with
  | O => ret tt
  | S k => store8 p v ;;; memset (p + 1) v k
  end.

(** [memcpy] from a constant of the program text into the mapping *)
Fixpoint memcpy_const (p : Z) (src : list Z) : M unit :=
  match src with
  | [] => ret tt
  | b :: rest => store8 p b ;;; memcpy_const (p + 1) rest
  end.

(** a zero-filled mapping of [n] bytes at [address] *)
Definition zeroed (address n : Z) : mapping := Mapping address n ∅.

(** ** region.h: swizzle / unswizzle *)

Definition swizzle (region object : Z) : Z := u64 (u64 region + u64 object).

Definition unswizzle (region pointer : Z) : Z := s64 (u64 pointer - u64 region).

(** ** region.c: constants and structure layout *)

Definition PAGE_SIZE : Z := 4096.
Definition PAGE_MASK : Z := not64 (PAGE_SIZE - 1).

(** [struct slab]: page.next @0, cache @8, list @16, next @24, objects @32,
    free_objects @40 (list, count) *)
Definition sizeof_slab : Z := 56.
Definition slab_cache (slab : Z) : Z := slab + 8.
Definition slab_list (slab : Z) : Z := slab + 16.
Definition slab_next (slab : Z) : Z := slab + 24.
Definition slab_objects (slab : Z) : Z := slab + 32.
Definition slab_free_objects (slab : Z) : Z := slab + 40.

(** [struct cache]: name @0 (16 bytes), full_slabs @16, partial_slabs @32,
    free_slabs @48 (each: list, count), object_size @64, alignment @66,
    aligned_size @72, object_count @80 *)
Definition sizeof_cache : Z := 88.
Definition sizeof_cache_name : Z := 16.
Definition cache_name (cache : Z) : Z := cache.
Definition cache_full_slabs (cache : Z) : Z := cache + 16.
Definition cache_partial_slabs (cache : Z) : Z := cache + 32.
Definition cache_free_slabs (cache : Z) : Z := cache + 48.
Definition cache_object_size (cache : Z) : Z := cache + 64.
Definition cache_alignment (cache : Z) : Z := cache + 66.
Definition cache_aligned_size (cache : Z) : Z := cache + 72.
Definition cache_object_count (cache : Z) : Z := cache + 80.

(** [struct slab_list] / [struct object_list]: list @0, count @8 *)
Definition list_list (l : Z) : Z := l.
Definition list_count (l : Z) : Z := l + 8.

(** [struct region]: size @0, pages @8, free_page @16, heap.bitset @24,
    caches.bitset @40 (each: bits, size), caches.count @56,
    caches.cache[20] @64 *)
Definition sizeof_region : Z := 64 + 20 * sizeof_cache.
Definition region_size (region : Z) : Z := region.
Definition region_pages (region : Z) : Z := region + 8.
Definition region_free_page (region : Z) : Z := region + 16.
Definition region_heap_bitset_bits (region : Z) : Z := region + 24.
Definition region_heap_bitset_size (region : Z) : Z := region + 32.
Definition region_caches_bitset_bits (region : Z) : Z := region + 40.
Definition region_caches_bitset_size (region : Z) : Z := region + 48.
Definition region_caches_count (region : Z) : Z := region + 56.
Definition region_caches_cache (region index : Z) : Z :=
  region + 64 + sizeof_cache * index.
(** [sizeof(region->caches.count)] *)
Definition sizeof_caches_count : Z := 8.

Definition alloc_size_index : list Z :=
  [ 0; 1; 2; 2;
    3; 3; 3; 3;
    4; 4; 4; 4;
    4; 4; 4; 4;
    5; 5; 5; 5;
    5; 5; 5; 5;
    5; 5; 5; 5;
    5; 5; 5; 5 ].

Record alloc_cache : Type := AllocCache {
  ac_name : string;
  ac_size : Z;
  ac_align : Z
}.

Definition alloc_caches : list alloc_cache :=
  [ AllocCache "region_alloc-8" 8 8;
    AllocCache "region_alloc-16" 16 8;
    AllocCache "region_alloc-32" 32 8;
    AllocCache "region_alloc-64" 64 8;
    AllocCache "region_alloc-128" 128 8;
    AllocCache "region_alloc-256" 256 8 ].

Definition string_bytes (s : string) : list Z :=
  map (fun c => Z.of_N (N_of_ascii c)) (list_ascii_of_string s).

(** ** Bitmaps *)

Definition set_bit (region bits size bit : Z) : M unit :=
  let ptr := swizzle region bits in
  b <- load8 (ptr + Z.shiftr bit 3) ;;
  store8 (ptr + Z.shiftr bit 3)
         (Z.lor b (Z.shiftl 1 (Z.land (Z.lxor bit 7) 15))).

Definition get_bit (region bits size bit : Z) : M Z :=
  let ptr := swizzle region bits in
  b <- load8 (ptr + Z.shiftr bit 3) ;;
  ret (Z.land b (Z.shiftl 1 (Z.land (Z.lxor bit 7) 15)) mod 256).

Definition aligned_size (size align : Z) : Z :=
  let align := if align =? 0 then 8 else align in
  if align >? size then align
  else u64 (align * (u64 (size + (align - 1)) / align)).

Definition cache_init (region : Z) (name : string) (size align : Z) : M Z :=
  id <- load64 (region_caches_count region) ;;
  store64 (region_caches_count region) (u64 (id + 1)) ;;;
  let cache := region_caches_cache region id in
  let slab_space := PAGE_SIZE - sizeof_slab in
  let name_length := Z.of_nat (String.length name) in
  let name_length :=
    if name_length >=? sizeof_cache_name
    then sizeof_cache_name - 1 else name_length in
  memset cache 0 (Z.to_nat sizeof_cache) ;;;
  memcpy_const (cache_name cache)
               (take (Z.to_nat name_length) (string_bytes name)) ;;;
  store16 (cache_object_size cache) size ;;;
  store16 (cache_alignment cache) align ;;;
  store64 (cache_aligned_size cache) (aligned_size size align) ;;;
  asz <- load64 (cache_aligned_size cache) ;;
  (if asz =? 0 then undefined
   else store64 (cache_object_count cache) (slab_space / asz)) ;;;
  ret id.

Fixpoint region_init_caches (region : Z) (l : list alloc_cache) : M unit :=
  match l with
  | [] => ret tt
  | cache :: rest =>
      cache_init region (ac_name cache) (ac_size cache) (ac_align cache) ;;;
      region_init_caches region rest
  end.

(** Returns [address] on success and 0 for NULL. *)
Definition region_init (address size : Z) : M Z :=
  (* region must be page aligned *)
  if negb (Z.land address PAGE_MASK =? address) then ret 0 else
  let pages :=
    u64 (u64 (sizeof_region + PAGE_SIZE) / PAGE_SIZE * PAGE_SIZE) in
  let caches := Z.of_nat (List.length alloc_caches) in
  let size_pages := size / PAGE_SIZE in
  (* size must be a multiple of page size and sufficiently large enough *)
  if negb (Z.land size PAGE_MASK =? size)
     || (size <? pages) || (size_pages <=? caches)
  then ret 0 else
  let region := address in
  let bitmap_size := Z.land (u64 (size / PAGE_SIZE + 7)) (u64 (-8)) in
  let unused_space := Z.shiftr (PAGE_SIZE - sizeof_region) 1 in
  placed <-
    (if bitmap_size <? unused_space then
       store64 (region_heap_bitset_bits region)
               (u64 (PAGE_SIZE - u64 (Z.shiftl bitmap_size 1))) ;;;
       store64 (region_heap_bitset_size region) bitmap_size ;;;
       store64 (region_caches_bitset_bits region)
               (u64 (PAGE_SIZE - bitmap_size)) ;;;
       store64 (region_caches_bitset_size region) bitmap_size ;;;
       ret true
     else
       let bitmap_pages :=
         u64 (u64 (Z.shiftl bitmap_size 1) + (PAGE_SIZE - 1)) / PAGE_SIZE in
       if u64 (bitmap_pages + caches) >=? size_pages then ret false else
       store64 (region_heap_bitset_bits region)
               (u64 (size - u64 (PAGE_SIZE * bitmap_pages))) ;;;
       store64 (region_heap_bitset_size region) bitmap_size ;;;
       store64 (region_caches_bitset_bits region)
               (u64 (size - Z.shiftr (u64 (PAGE_SIZE * bitmap_pages)) 2)) ;;;
       store64 (region_caches_bitset_size region) bitmap_size ;;;
       ret true) ;;
  if negb placed then ret 0 else
  store64 (region_size region) size ;;;
  store64 (region_caches_count region) 0 ;;;
  store64 (region_free_page region) pages ;;;
  store64 (region_pages region) pages ;;;
  (* initialize small object caches *)
  region_init_caches region alloc_caches ;;;
  ret region.

(** ** Page allocator, slab caches and the public interface

    [ndebug] tells whether the code was compiled with NDEBUG, which turns
    every [assert] into nothing.  [fuel] bounds the iterations of each loop
    of the C code; a loop that needs more ends in [OutOfFuel]. *)

Section Allocator.

Variable ndebug : bool.
Variable fuel : nat.

Definition assert (cond : M bool) : M unit :=
  if ndebug then ret tt
  else (b <- cond ;; if b : bool then ret tt else assert_fail).

(** the scan of [allocate_page]:
    [for (; bits == (uint64_t)-1 && block <= last_block; block++)] *)
Fixpoint allocate_page_scan (n : nat)
    (heap_bits cache_bits last_block bits block : Z) : M (Z * Z) :=
  if (bits =? wordsize - 1) && (block <=? last_block) then
    match n with
    | O => out_of_fuel
    | S k =>
        assert (h <- load64 (heap_bits + 8 * block) ;;
                c <- load64 (cache_bits + 8 * block) ;;
                ret (Z.land h c =? 0)) ;;;
        h <- load64 (heap_bits + 8 * block) ;;
        c <- load64 (cache_bits + 8 * block) ;;
        allocate_page_scan k heap_bits cache_bits last_block
                           (Z.lor h c) (u64 (block + 1))
    end
  else ret (bits, block).

Definition allocate_page (region : Z) : M Z :=
  (* check if a free (lowest to highest) page is available *)
  page <- load64 (region_free_page region) ;;
  if page =? 0 then ret 0 else
  assert (ret (Z.land page PAGE_MASK =? page)) ;;;
  assert (hs <- load64 (region_heap_bitset_size region) ;;
          cs <- load64 (region_caches_bitset_size region) ;;
          ret (hs =? cs)) ;;;
  let bit := page / PAGE_SIZE in
  let block := Z.land (u64 (bit + 1)) (u64 (-64)) in
  heap_size <- load64 (region_heap_bitset_size region) ;;
  let last_block := Z.land heap_size (u64 (-64)) in
  (* ignore current page *)
  let bits :=
    if bit >? block then Z.shiftl 1 (Z.land (Z.lxor bit 63) 63) else 0 in
  hb <- load64 (region_heap_bitset_bits region) ;;
  let heap_bits := swizzle region hb in
  cb <- load64 (region_caches_bitset_bits region) ;;
  let cache_bits := swizzle region cb in
  (* pages are allocated to heap or cache, never both *)
  assert (h <- load64 (heap_bits + 8 * block) ;;
          c <- load64 (cache_bits + 8 * block) ;;
          ret (Z.land h c =? 0)) ;;;
  h <- load64 (heap_bits + 8 * block) ;;
  c <- load64 (cache_bits + 8 * block) ;;
  let bits := Z.lor bits (Z.lor h c) in
  let block := u64 (block + 1) in
  r <- allocate_page_scan fuel heap_bits cache_bits last_block bits block ;;
  let '(bits, block) := r in
  (* ignore unavailable pages *)
  let bits :=
    if block =? u64 (last_block + 1)
    then Z.lor bits (Z.shiftl 1 (Z.land (Z.lxor heap_size 63) 63))
    else bits in
  (if negb (bits =? wordsize - 1)
   then store64 (region_free_page region)
                (u64 (u64 (block + ctzll (not64 bits)) * PAGE_SIZE))
   else store64 (region_free_page region) 0) ;;;
  ret page.

(** the threading loop of [allocate_slab]:
    [for (; object > slab->objects;
          next_object = object, object -= cache->aligned_size)] *)
Fixpoint allocate_slab_thread (n : nat)
    (region slab cache object next_object : Z) : M Z :=
  objects <- load64 (slab_objects slab) ;;
  if object >? objects then
    match n with
    | O => out_of_fuel
    | S k =>
        store64 (swizzle region object) next_object ;;;
        asz <- load64 (cache_aligned_size cache) ;;
        allocate_slab_thread k region slab cache (u64 (object - asz)) object
    end
  else ret object.

(** [cache] is the address of the cache descriptor. *)
Definition allocate_slab (region cache : Z) : M Z :=
  slab_offset <- allocate_page region ;;
  if slab_offset =? 0 then ret 0 else
  cb <- load64 (region_caches_bitset_bits region) ;;
  let bits := swizzle region cb in
  let bit := slab_offset / PAGE_SIZE in
  assert (cs <- load64 (region_caches_bitset_size region) ;;
          ret (bit <? cs)) ;;;
  b <- load8 (bits + bit / 8) ;;
  store8 (bits + bit / 8) (Z.lor b (Z.shiftl 1 (7 - bit mod 8))) ;;;
  let slab := swizzle region slab_offset in
  memset (slab + 8) 0 (Z.to_nat (PAGE_SIZE - 8)) ;;;
  (* slab *)
  store64 (slab_cache slab) (unswizzle region cache) ;;;
  store64 (slab_list slab) (unswizzle region (cache_free_slabs cache)) ;;;
  fl <- load64 (list_list (cache_free_slabs cache)) ;;
  store64 (slab_next slab) fl ;;;
  count <- load64 (cache_object_count cache) ;;
  asz <- load64 (cache_aligned_size cache) ;;
  store64 (slab_objects slab)
          (u64 (slab_offset + u64 (PAGE_SIZE - u64 (u64 (count - 1) * asz)))) ;;;
  objects <- load64 (slab_objects slab) ;;
  store64 (list_list (slab_free_objects slab)) objects ;;;
  count <- load64 (cache_object_count cache) ;;
  store64 (list_count (slab_free_objects slab)) count ;;;
  (* objects *)
  objects <- load64 (slab_objects slab) ;;
  count <- load64 (cache_object_count cache) ;;
  asz <- load64 (cache_aligned_size cache) ;;
  let object := u64 (objects + u64 (u64 (count - 1) * asz)) in
  object <- allocate_slab_thread fuel region slab cache object 0 ;;
  assert (objects <- load64 (slab_objects slab) ;; ret (object =? objects)) ;;;
  (* cache *)
  store64 (list_list (cache_free_slabs cache)) slab_offset ;;;
  fc <- load64 (list_count (cache_free_slabs cache)) ;;
  store64 (list_count (cache_free_slabs cache)) (u64 (fc + 1)) ;;;
  ret slab_offset.

Definition cache_alloc (region index size : Z) : M Z :=
  assert (ret (negb (region =? 0))) ;;;
  assert (ret (index <? sizeof_caches_count)) ;;;
  let cache := region_caches_cache region index in
  pl <- load64 (list_list (cache_partial_slabs cache)) ;;
  r <-
    (if negb (pl =? 0) then
       let slab_offset := pl in
       let slab := swizzle region slab_offset in
       (* move to full slabs if depleted *)
       fc <- load64 (list_count (slab_free_objects slab)) ;;
       (if fc =? 1 then
          pc <- load64 (list_count (cache_partial_slabs cache)) ;;
          store64 (list_count (cache_partial_slabs cache)) (u64 (pc - 1)) ;;;
          nx <- load64 (slab_next slab) ;;
          store64 (list_list (cache_partial_slabs cache)) nx ;;;
          fl <- load64 (list_list (cache_full_slabs cache)) ;;
          store64 (slab_next slab) fl ;;;
          store64 (slab_list slab) fl ;;;
          c <- load64 (list_count (cache_full_slabs cache)) ;;
          store64 (list_count (cache_full_slabs cache)) (u64 (c + 1)) ;;;
          store64 (list_list (cache_full_slabs cache)) slab_offset
        else ret tt) ;;;
       ret (Some slab)
     else
       fl <- load64 (list_list (cache_free_slabs cache)) ;;
       got <- (if fl =? 0
               then (s <- allocate_slab region cache ;; ret (negb (s =? 0)))
               else ret true) ;;
       if negb got then ret None else
       assert (c <- load64 (list_count (cache_free_slabs cache)) ;;
               l <- load64 (list_list (cache_free_slabs cache)) ;;
               ret (negb (c =? 0) && negb (l =? 0))) ;;;
       slab_offset <- load64 (list_list (cache_free_slabs cache)) ;;
       let slab := swizzle region slab_offset in
       (* remove from free slab list *)
       c <- load64 (list_count (cache_free_slabs cache)) ;;
       store64 (list_count (cache_free_slabs cache)) (u64 (c - 1)) ;;;
       nx <- load64 (slab_next slab) ;;
       store64 (list_list (cache_free_slabs cache)) nx ;;;
       fc <- load64 (list_count (slab_free_objects slab)) ;;
       (if fc =? 1 then
          store64 (slab_list slab)
                  (unswizzle region (cache_full_slabs cache)) ;;;
          l <- load64 (list_list (cache_full_slabs cache)) ;;
          store64 (slab_next slab) l ;;;
          c <- load64 (list_count (cache_full_slabs cache)) ;;
          store64 (list_count (cache_full_slabs cache)) (u64 (c + 1)) ;;;
          store64 (list_list (cache_full_slabs cache)) slab_offset
        else
          store64 (slab_list slab)
                  (unswizzle region (cache_partial_slabs cache)) ;;;
          l <- load64 (list_list (cache_partial_slabs cache)) ;;
          store64 (slab_next slab) l ;;;
          c <- load64 (list_count (cache_partial_slabs cache)) ;;
          store64 (list_count (cache_partial_slabs cache)) (u64 (c + 1)) ;;;
          store64 (list_list (cache_partial_slabs cache)) slab_offset) ;;;
       ret (Some slab)) ;;
  match r with
  | None => ret 0
  | Some slab =>
      fc <- load64 (list_count (slab_free_objects slab)) ;;
      store64 (list_count (slab_free_objects slab)) (u64 (fc - 1)) ;;;
      object_offset <- load64 (list_list (slab_free_objects slab)) ;;
      nx <- load64 (swizzle region object_offset) ;;
      store64 (list_list (slab_free_objects slab)) nx ;;;
      ret (s64 object_offset)
  end.

(** the double-free scan of [cache_free]:
    [for (uintptr_t free_object = slab->free_objects.list; free_object; )];
    the body leaves [free_object] as it is. *)
Fixpoint cache_free_scan (n : nat)
    (region object next_page free_object : Z) : M unit :=
  if negb (free_object =? 0) then
    match n with
    | O => out_of_fuel
    | S k =>
        assert (ret (negb (free_object =? u64 object))) ;;;
        assert (ret (free_object <? next_page)) ;;;
        (* memcmp(&free_object, swizzle(region, free_object), 8): the
           result is discarded *)
        _ <- load64 (swizzle region free_object) ;;
        cache_free_scan k region object next_page free_object
    end
  else ret tt.

Definition cache_free (region index object : Z) : M unit :=
  assert (ret (negb (region =? 0))) ;;;
  assert (ret (index <? sizeof_caches_count)) ;;;
  let slab_offset := Z.land (u64 object) PAGE_MASK in
  let next_page := u64 (slab_offset + PAGE_SIZE) in
  let slab := swizzle region slab_offset in
  let cache := region_caches_cache region index in
  assert (c <- load64 (slab_cache slab) ;;
          ret (swizzle region c =? u64 cache)) ;;;
  (* detect double free *)
  fl <- load64 (list_list (slab_free_objects slab)) ;;
  cache_free_scan fuel region object next_page fl ;;;
  fl <- load64 (list_list (slab_free_objects slab)) ;;
  store64 (swizzle region object) fl ;;;
  store64 (list_list (slab_free_objects slab)) (u64 object) ;;;
  fc <- load64 (list_count (slab_free_objects slab)) ;;
  store64 (list_count (slab_free_objects slab)) (u64 (fc + 1)) ;;;
  fc <- load64 (list_count (slab_free_objects slab)) ;;
  count <- load64 (cache_object_count cache) ;;
  if negb (fc =? count) then ret tt else
  pl <- load64 (list_list (cache_partial_slabs cache)) ;;
  (if pl =? slab_offset then
     pc <- load64 (list_count (cache_partial_slabs cache)) ;;
     store64 (list_count (cache_partial_slabs cache)) (u64 (pc - 1)) ;;;
     nx <- load64 (slab_next slab) ;;
     store64 (list_list (cache_partial_slabs cache)) nx ;;;
     assert (c <- load64 (list_count (cache_partial_slabs cache)) ;;
             l <- load64 (list_list (cache_partial_slabs cache)) ;;
             ret (Bool.eqb (c =? 0) (l =? 0)))
   else ret tt) ;;;
  l <- load64 (list_list (cache_free_slabs cache)) ;;
  store64 (slab_next slab) l ;;;
  c <- load64 (list_count (cache_free_slabs cache)) ;;
  store64 (list_count (cache_free_slabs cache)) (u64 (c + 1)) ;;;
  store64 (list_list (cache_free_slabs cache)) slab_offset.

End Allocator.

(** Tests the caches bitset, at bit index [object & PAGE_MASK]. *)
Definition is_heap_object (region object : Z) : M bool :=
  let bit := Z.land (u64 object) PAGE_MASK in
  bits <- load64 (region_caches_bitset_bits region) ;;
  size <- load64 (region_caches_bitset_size region) ;;
  b <- get_bit region bits size bit ;;
  ret (negb (b =? 0)).

(** Tests the heap bitset, at bit index [object & PAGE_MASK]. *)
Definition is_cache_object (region object : Z) : M bool :=
  let bit := Z.land (u64 object) PAGE_MASK in
  bits <- load64 (region_heap_bitset_bits region) ;;
  size <- load64 (region_heap_bitset_size region) ;;
  b <- get_bit region bits size bit ;;
  ret (negb (b =? 0)).

Definition is_object (ndebug : bool) (region object : Z) : M bool :=
  assert ndebug (ret (negb (region =? 0))) ;;;
  pages <- load64 (region_pages region) ;;
  if u64 object <=? pages then ret false else
  size <- load64 (region_size region) ;;
  if u64 object >=? size then ret false else
  (* objects are aligned to 8 bytes *)
  if negb (Z.land object 7 =? 0) then ret false else
  (* object page must be allocated to cache or heap *)
  c <- is_cache_object region object ;;
  if c then ret true else
  h <- is_heap_object region object ;;
  if h then ret true else ret false.

Definition object_cache (region object : Z) : M Z :=
  let slab := swizzle region (Z.land (u64 object) PAGE_MASK) in
  cache_offset <- load64 (slab_cache slab) ;;
  let cache := swizzle region cache_offset in
  let x := u64 (cache - u64 (region_caches_cache region 0)) in
  let x := x / sizeof_cache in
  ret (s64 x).

Definition is_small_object_size (size : Z) : bool := size <=? 256.

Definition small_object_cache (ndebug : bool) (size : Z) : M Z :=
  assert ndebug (ret (size <=? 256)) ;;;
  match alloc_size_index !! Z.to_nat (Z.shiftr (u64 (size - 1)) 3) with
  | Some index => ret index
  | None => undefined
  end.

(** For a size above 256 the C function ends without a [return]: the value
    the caller gets is not defined. *)
Definition region_alloc (ndebug : bool) (fuel : nat) (region size : Z) : M Z :=
  assert ndebug (ret (negb (region =? 0))) ;;;
  if is_small_object_size size then
    if size =? 0 then ret 0 else
    index <- small_object_cache ndebug size ;;
    cache_alloc ndebug fuel region index size
  else undefined.

Definition region_free (ndebug : bool) (fuel : nat) (region object : Z)
  : M unit :=
  assert ndebug (ret (negb (region =? 0))) ;;;
  pages <- load64 (region_pages region) ;;
  if u64 object <=? pages then ret tt else
  size <- load64 (region_size region) ;;
  if u64 object >=? size then ret tt else
  if negb (Z.land object 7 =? 0) then ret tt else
  c <- is_cache_object region object ;;
  if c then
    index <- object_cache region object ;;
    cache_free ndebug fuel region (u64 index) object
  else ret tt.

(** ** Notions of the specification, for comparison with the code *)

(** The bit of page [page] in a bitmap, as [allocate_slab] sets it: most
    significant bit first within each byte. *)
Definition page_marked (region bits page : Z) : M bool :=
  b <- load8 (swizzle region bits + page / 8) ;;
  ret (negb (Z.land b (Z.shiftl 1 (7 - page mod 8)) =? 0)).

(** [is_object] as the specification words it: strictly above [pages],
    below [size], 8-byte aligned, and the page marked in exactly one of the
    two bitmaps. *)
Definition spec_is_object (region object : Z) : M bool :=
  pages <- load64 (region_pages region) ;;
  size <- load64 (region_size region) ;;
  hb <- load64 (region_heap_bitset_bits region) ;;
  cb <- load64 (region_caches_bitset_bits region) ;;
  h <- page_marked region hb (object / PAGE_SIZE) ;;
  c <- page_marked region cb (object / PAGE_SIZE) ;;
  ret ((pages <? object) && (object <? size) && (object mod 8 =? 0)
       && xorb h c).

(** Where the specification puts the first object of a slab. *)
Definition spec_slab_objects (slab_offset count asz : Z) : Z :=
  slab_offset + PAGE_SIZE - count * asz.

(** The header size rounded up to a multiple of the page size. *)
Definition round_up_page (x : Z) : Z :=
  (x + PAGE_SIZE - 1) / PAGE_SIZE * PAGE_SIZE.

(** Walk of a free-object list from [object] to the terminator 0. *)
Fixpoint free_list_walk (n : nat) (region object : Z) : M (list Z) :=
  if object =? 0 then ret [] else
  match n with
  | O => out_of_fuel
  | S k =>
      next <- load64 (swizzle region object) ;;
      rest <- free_list_walk k region next ;;
      ret (object :: rest)
  end.

(** ** The scenario of the demo driver: a zero-filled region of 20 pages *)

Definition R0 : Z := 139637976727552.      (* 0x7f0000000000 *)
Definition twenty_pages : Z := 20 * PAGE_SIZE.
Definition fresh : mapping := zeroed R0 twenty_pages.
Definition fuel0 : nat := 1024.

Definition value {A} (o : outcome A) : option A :=
  match o with
  | Ok a _ => Some a
  | _ => None
  end.

(** the mapping a run leaves behind (the given one if it did not return) *)
Definition final {A} (o : outcome A) (m : mapping) : mapping :=
  match o with
  | Ok _ m' => m'
  | _ => m
  end.

(** the region of the scenario once [region_init] has run on it *)
Definition initialized : mapping :=
  final (region_init R0 twenty_pages fresh) fresh.

Definition cache0 : Z := region_caches_cache R0 0.
Definition cache1 : Z := region_caches_cache R0 1.

(** init, then one allocation of [size] bytes, then [is_object] on it *)
Definition alloc_then_is_object (ndebug : bool) (size : Z)
  : M (Z * Z * bool) :=
  r <- region_init R0 twenty_pages ;;
  o <- region_alloc ndebug fuel0 R0 size ;;
  b <- is_object ndebug R0 o ;;
  ret (r, o, b).

(** init, alloc, free, alloc of the same size *)
Definition alloc_free_alloc (ndebug : bool) (size : Z) : M (Z * Z * Z) :=
  r <- region_init R0 twenty_pages ;;
  o <- region_alloc ndebug fuel0 R0 size ;;
  region_free ndebug fuel0 R0 o ;;;
  o' <- region_alloc ndebug fuel0 R0 size ;;
  ret (r, o, o').

(** init, an 8-byte and a 16-byte allocation, and the first one freed *)
Definition two_allocs_one_free (ndebug : bool) : M (Z * Z * Z) :=
  r <- region_init R0 twenty_pages ;;
  a <- region_alloc ndebug fuel0 R0 8 ;;
  b <- region_alloc ndebug fuel0 R0 16 ;;
  region_free ndebug fuel0 R0 a ;;;
  ret (r, a, b).

(** init, one allocation, and the comparison of the two [is_object]s *)
Definition alloc_then_both_is_object (ndebug : bool) (size : Z)
  : M (Z * bool * bool) :=
  region_init R0 twenty_pages ;;;
  o <- region_alloc ndebug fuel0 R0 size ;;
  s <- spec_is_object R0 o ;;
  b <- is_object ndebug R0 o ;;
  ret (o, s, b).

Record slab_report : Type := SlabReport {
  sr_slab : Z;          (* offset of the slab *)
  sr_count : Z;         (* cache->object_count *)
  sr_aligned : Z;       (* cache->aligned_size *)
  sr_objects : Z;       (* slab->objects *)
  sr_head : Z;          (* slab->free_objects.list *)
  sr_first_word : Z;    (* next-offset stored in the first slot *)
  sr_second_word : Z;   (* next-offset stored in the second slot *)
  sr_last_word : Z      (* next-offset stored in the last slot *)
}.

(** init, then a slab formatted for cache 0 *)
Definition format_slab (ndebug : bool) : M slab_report :=
  region_init R0 twenty_pages ;;;
  slab_offset <- allocate_slab ndebug fuel0 R0 cache0 ;;
  let slab := swizzle R0 slab_offset in
  count <- load64 (cache_object_count cache0) ;;
  asz <- load64 (cache_aligned_size cache0) ;;
  objects <- load64 (slab_objects slab) ;;
  head <- load64 (list_list (slab_free_objects slab)) ;;
  w0 <- load64 (swizzle R0 objects) ;;
  w1 <- load64 (swizzle R0 (objects + asz)) ;;
  wl <- load64 (swizzle R0 (objects + (count - 1) * asz)) ;;
  ret (SlabReport slab_offset count asz objects head w0 w1 wl).

(** init, an 8-byte allocation, then the count and the walk of the free
    list of the slab it came from *)
Definition alloc_then_walk (ndebug : bool) : M (Z * Z * list Z) :=
  region_init R0 twenty_pages ;;;
  o <- region_alloc ndebug fuel0 R0 8 ;;
  let slab := swizzle R0 (Z.land (u64 o) PAGE_MASK) in
  count <- load64 (list_count (slab_free_objects slab)) ;;
  head <- load64 (list_list (slab_free_objects slab)) ;;
  slots <- free_list_walk fuel0 R0 head ;;
  ret (o, count, slots).

(** init, a slab for cache 0, the hint it leaves and whether the hinted
    page is marked, then a slab for cache 1 *)
Definition two_slabs (ndebug : bool) : M (Z * Z * bool * Z) :=
  region_init R0 twenty_pages ;;;
  s1 <- allocate_slab ndebug fuel0 R0 cache0 ;;
  hint <- load64 (region_free_page R0) ;;
  cb <- load64 (region_caches_bitset_bits R0) ;;
  marked <- page_marked R0 cb (hint / PAGE_SIZE) ;;
  s2 <- allocate_slab ndebug fuel0 R0 cache1 ;;
  ret (s1, hint, marked, s2).

(** init and an 8-byte allocation; then the head of the slab's free list
    before and after the object is freed *)
Definition free_changes_head (ndebug : bool) : M (Z * Z * Z) :=
  region_init R0 twenty_pages ;;;
  o <- region_alloc ndebug fuel0 R0 8 ;;
  let slab := swizzle R0 (Z.land (u64 o) PAGE_MASK) in
  before <- load64 (list_list (slab_free_objects slab)) ;;
  region_free ndebug fuel0 R0 o ;;;
  after <- load64 (list_list (slab_free_objects slab)) ;;
  ret (o, before, after).

(** ** Checks used in the statements below *)

(** the check that a size is mapped to a cache into which it fits and
    which is the tightest of the preconfigured ones *)
Definition best_fit (size index : Z) : bool :=
  match alloc_caches !! Z.to_nat index with
  | Some c =>
      (size <=? ac_size c)
      && forallb (fun c' => (ac_size c' <? size) || (ac_size c <=? ac_size c'))
                 alloc_caches
  | None => false
  end.

(** ** The mapping as a function of the address

    Pure counterparts of the memory accesses, for stating what a run
    leaves in the mapping. *)

(** [n] bytes from address [p] lie inside the mapping *)
Definition covers (m : mapping) (p n : Z) : Prop :=
  base m <= p /\ p + n <= base m + msize m.

Definition byte_at (m : mapping) (p : Z) : Z :=
  default 0 (bytes m !! (p - base m)).

Definition poke (m : mapping) (p v : Z) : mapping :=
  Mapping (base m) (msize m) (<[p - base m := v mod 256]> (bytes m)).

Fixpoint peek_le (n : nat) (m : mapping) (p : Z) : Z :=
  match n with
  | O => 0
  | S k => byte_at m p + 256 * peek_le k m (p + 1)
  end.

Fixpoint poke_le (n : nat) (m : mapping) (p v : Z) : mapping :=
  match n with
  | O => m
  | S k => poke_le k (poke m p v) (p + 1) (v / 256)
  end.

Fixpoint fill (n : nat) (m : mapping) (p v : Z) : mapping :=
  match n with
  | O => m
  | S k => fill k (poke m p v) (p + 1) v
  end.

Fixpoint poke_list (src : list Z) (m : mapping) (p : Z) : mapping :=
  match src with
  | [] => m
  | b :: rest => poke_list rest (poke m p b) (p + 1)
  end.

(** the 8-byte word at address [p] *)
Definition word_at (m : mapping) (p : Z) : Z := peek_le 8 m p.

(** the same mapping outside the [n] bytes at [p] *)
Definition same_outside (p n : Z) (m m' : mapping) : Prop :=
  base m' = base m /\ msize m' = msize m
  /\ forall q, q < p \/ p + n <= q -> byte_at m' q = byte_at m q.

(** the region of the scenario after [region_init] and one [region_alloc] *)
Definition after_alloc (size : Z) : mapping :=
  final ((region_init R0 twenty_pages ;;;
          region_alloc true fuel0 R0 size) fresh) fresh.

(** the initialized region with the page hint cleared, the value
    [allocate_page] stores when its scan finds no free page *)
Definition exhausted : mapping :=
  final (store64 (region_free_page R0) 0 initialized) fresh.

(** the region of the scenario after [region_init], an 8-byte allocation
    and the [region_free] of the offset it returned *)
Definition after_alloc_free : mapping :=
  final ((region_init R0 twenty_pages ;;;
          o <- region_alloc true fuel0 R0 8 ;;
          region_free true fuel0 R0 o) fresh) fresh.

(** what [cache_init] leaves in a cache descriptor *)
Definition cache_ready (m : mapping) (cache : Z) (ac : alloc_cache) : Prop :=
  word_at m (cache_aligned_size cache) = aligned_size (ac_size ac) (ac_align ac)
  /\ word_at m (cache_object_count cache)
     = (PAGE_SIZE - sizeof_slab) / aligned_size (ac_size ac) (ac_align ac)
  /\ peek_le 2 m (cache_object_size cache) = ac_size ac
  /\ peek_le 2 m (cache_alignment cache) = ac_align ac
  /\ word_at m (list_list (cache_full_slabs cache)) = 0
  /\ word_at m (list_count (cache_full_slabs cache)) = 0
  /\ word_at m (list_list (cache_partial_slabs cache)) = 0
  /\ word_at m (list_count (cache_partial_slabs cache)) = 0
  /\ word_at m (list_list (cache_free_slabs cache)) = 0
  /\ word_at m (list_count (cache_free_slabs cache)) = 0.

(** size in bytes that [region_init] records for each bitmap: the number of
    pages rounded up to a multiple of 8 *)
Definition bitmap_bytes (size : Z) : Z := 8 * ((size / PAGE_SIZE + 7) / 8).

(** pages that [region_init] sets aside at the tail when the bitmaps do not
    fit the first page *)
Definition bitmap_tail_pages (size : Z) : Z :=
  (2 * bitmap_bytes size + (PAGE_SIZE - 1)) / PAGE_SIZE.

(** bytes of the first page left for each bitmap *)
Definition unused_space : Z := (PAGE_SIZE - sizeof_region) / 2.

(** the part of the header that [region_init] writes: the fixed fields and
    the descriptors of the preconfigured caches *)
Definition sizeof_written_header : Z :=
  64 + sizeof_cache * Z.of_nat (List.length alloc_caches).





(** the region of the scenario after an 8-byte allocation and the
    [cache_free] of the object it returned *)
Definition slab_returned : mapping :=
  final (cache_free false fuel0 R0 0 4160 (after_alloc 8)) fresh.

(** * Properties *)

(** ** The monad *)

Section MonadFacts.

Context {A B : Type}.

Lemma bind_Ok (c : M A) (k : A -> M B) (m m' : mapping) (a : A) :
  c m = Ok a m' -> bind c k m = k a m'.
Proof. intros H. unfold bind. rewrite H. reflexivity. Qed.

Lemma bind_OutOfFuel (c : M A) (k : A -> M B) (m : mapping) :
  c m = OutOfFuel -> bind c k m = OutOfFuel.
Proof. intros H. unfold bind. rewrite H. reflexivity. Qed.

Lemma bind_inv (c : M A) (k : A -> M B) (m m' : mapping) (b : B) :
  bind c k m = Ok b m' ->
  exists a m1, c m = Ok a m1 /\ k a m1 = Ok b m'.
Proof.
  unfold bind. destruct (c m) as [a m1| | |]; try discriminate.
  intros H. exists a, m1. split; [reflexivity | exact H].
Qed.

Lemma value_final (o : outcome A) (a : A) (m : mapping) :
  value o = Some a -> o = Ok a (final o m).
Proof. destruct o; simpl; intros H; congruence. Qed.

End MonadFacts.

(** Code that only reads: when it returns, the mapping is the one it was
    given. *)
Definition readonly {A} (c : M A) : Prop :=
  forall (m m' : mapping) (a : A), c m = Ok a m' -> m' = m.

Lemma readonly_ret {A} (a : A) : readonly (ret a).
Proof. intros m m' b H. inversion H. reflexivity. Qed.

Lemma readonly_undefined {A} : readonly (@undefined A).
Proof. intros m m' b H. discriminate. Qed.

Lemma readonly_assert_fail {A} : readonly (@assert_fail A).
Proof. intros m m' b H. discriminate. Qed.

Lemma readonly_bind {A B} (c : M A) (k : A -> M B) :
  readonly c -> (forall a, readonly (k a)) -> readonly (bind c k).
Proof.
  intros Hc Hk m m' b H.
  apply bind_inv in H as (a & m1 & H1 & H2).
  apply Hc in H1. subst m1. exact (Hk a m m' b H2).
Qed.

Lemma readonly_load8 (p : Z) : readonly (load8 p).
Proof.
  intros m m' b H. unfold load8 in H.
  destruct (in_bounds m p); inversion H. reflexivity.
Qed.

Lemma readonly_load_le (n : nat) (p : Z) : readonly (load_le n p).
Proof.
  revert p. induction n as [| n IH]; intros p; simpl.
  - apply readonly_ret.
  - apply readonly_bind; [apply readonly_load8 |].
    intros b. apply readonly_bind; [apply IH |].
    intros r. apply readonly_ret.
Qed.

Lemma readonly_load64 (p : Z) : readonly (load64 p).
Proof. apply readonly_load_le. Qed.

Lemma readonly_assert (ndebug : bool) (cond : M bool) :
  readonly cond -> readonly (assert ndebug cond).
Proof.
  intros H. unfold assert. destruct ndebug; [apply readonly_ret |].
  apply readonly_bind; [exact H |].
  intros [|]; [apply readonly_ret | apply readonly_assert_fail].
Qed.

Lemma readonly_value {A} (c : M A) (m : mapping) (a : A) :
  readonly c -> value (c m) = Some a -> c m = Ok a m.
Proof.
  intros Hc Hv. destruct (c m) as [b m'| | |] eqn:E; try discriminate.
  simpl in Hv. inversion Hv. subst b.
  rewrite (Hc m m' a E). reflexivity.
Qed.

Ltac readonly :=
  repeat first
    [ apply readonly_ret
    | apply readonly_undefined
    | apply readonly_assert_fail
    | apply readonly_load8
    | apply readonly_load64
    | apply readonly_load_le
    | apply readonly_assert
    | apply readonly_bind
    | intro ].

Lemma readonly_get_bit (region bits size bit : Z) :
  readonly (get_bit region bits size bit).
Proof. unfold get_bit. readonly. Qed.

Lemma readonly_is_cache_object (region object : Z) :
  readonly (is_cache_object region object).
Proof.
  unfold is_cache_object. readonly.
Qed.

Lemma readonly_is_heap_object (region object : Z) :
  readonly (is_heap_object region object).
Proof.
  unfold is_heap_object. readonly.
Qed.

Lemma readonly_object_cache (region object : Z) :
  readonly (object_cache region object).
Proof. unfold object_cache. readonly. Qed.

(** ** Machine arithmetic *)

Lemma u64_range (x : Z) : 0 <= u64 x < wordsize.
Proof. unfold u64. apply Z.mod_pos_bound. reflexivity. Qed.

Lemma u64_small (x : Z) : 0 <= x < wordsize -> u64 x = x.
Proof. intros H. unfold u64. apply Z.mod_small. exact H. Qed.

Lemma s64_range (x : Z) : - 2 ^ 63 <= s64 x < 2 ^ 63.
Proof.
  unfold s64. pose proof (u64_range x) as H. unfold u64, wordsize in *.
  destruct (Z.ltb_spec (x mod 2 ^ 64) (2 ^ 63)); lia.
Qed.

Lemma s64_u64 (x : Z) : - 2 ^ 63 <= x < 2 ^ 63 -> s64 (u64 x) = x.
Proof.
  intros H. unfold s64, u64, wordsize. rewrite Zmod_mod.
  destruct (Z_lt_le_dec x 0) as [Hneg | Hpos].
  - replace (x mod 2 ^ 64) with (x + 2 ^ 64).
    + destruct (Z.ltb_spec (x + 2 ^ 64) (2 ^ 63)); lia.
    + apply Z.mod_unique with (q := -1); lia.
  - rewrite Z.mod_small by lia.
    destruct (Z.ltb_spec x (2 ^ 63)); lia.
Qed.

Lemma PAGE_MASK_low_bits : Z.land PAGE_MASK (Z.ones 12) = 0.
Proof. reflexivity. Qed.

(** [x & PAGE_MASK] is always a multiple of the page size. *)
Lemma land_PAGE_MASK_aligned (x : Z) : Z.land x PAGE_MASK mod PAGE_SIZE = 0.
Proof.
  change PAGE_SIZE with (2 ^ 12).
  rewrite <- Z.land_ones by lia.
  rewrite <- Z.land_assoc, PAGE_MASK_low_bits. apply Z.land_0_r.
Qed.

Lemma unaligned_fails_mask_test (x : Z) :
  x mod PAGE_SIZE <> 0 -> (Z.land x PAGE_MASK =? x) = false.
Proof.
  intros H. apply Z.eqb_neq. intros E.
  apply H. rewrite <- E. apply land_PAGE_MASK_aligned.
Qed.

(** ** region_init *)

Lemma region_init_pages :
  u64 (u64 (sizeof_region + PAGE_SIZE) / PAGE_SIZE * PAGE_SIZE)
  = round_up_page sizeof_region.
Proof. reflexivity. Qed.

(** C8: [region_init] returns NULL, and leaves the block as it found it,
    whenever the address is not page-aligned, the size is not a multiple of
    the page size, the size is below the header rounded up to whole pages,
    or the number of pages does not exceed the number of preconfigured
    caches; a size of exactly one page is such a case. *)
Theorem region_init_rejects (address size : Z) (m : mapping) :
  address mod PAGE_SIZE <> 0
  \/ size mod PAGE_SIZE <> 0
  \/ size < round_up_page sizeof_region
  \/ size / PAGE_SIZE <= Z.of_nat (List.length alloc_caches)
  \/ size = PAGE_SIZE ->
  region_init address size m = Ok 0 m.
Proof.
  intros H. unfold region_init.
  destruct (Z.land address PAGE_MASK =? address) eqn:Ea;
    [change (negb true) with false | reflexivity].
  cbv beta iota zeta. rewrite region_init_pages.
  assert (C : negb (Z.land size PAGE_MASK =? size)
              || (size <? round_up_page sizeof_region)
              || (size / PAGE_SIZE <=? Z.of_nat (List.length alloc_caches))
              = true).
  { destruct H as [H | [H | [H | [H | H]]]].
    - apply Z.eqb_eq in Ea. exfalso. apply H. rewrite <- Ea.
      apply land_PAGE_MASK_aligned.
    - rewrite (unaligned_fails_mask_test _ H). reflexivity.
    - apply Z.ltb_lt in H. rewrite H. apply orb_true_iff. left.
      apply orb_true_r.
    - apply Z.leb_le in H. rewrite H. apply orb_true_r.
    - subst size. reflexivity. }
  rewrite C. reflexivity.
Qed.

Lemma region_init_rejects_witness :
  region_init (R0 + 8) twenty_pages fresh = Ok 0 fresh
  /\ region_init R0 (twenty_pages + 512) fresh = Ok 0 fresh
  /\ region_init R0 (6 * PAGE_SIZE) fresh = Ok 0 fresh
  /\ region_init R0 PAGE_SIZE fresh = Ok 0 fresh.
Proof.
  split; [| split; [| split]].
  - apply (region_init_rejects (R0 + 8) twenty_pages fresh).
    left. vm_compute. discriminate.
  - apply (region_init_rejects R0 (twenty_pages + 512) fresh).
    right. left. vm_compute. discriminate.
  - apply (region_init_rejects R0 (6 * PAGE_SIZE) fresh).
    right. right. right. left. vm_compute. discriminate.
  - apply (region_init_rejects R0 PAGE_SIZE fresh).
    right. right. right. right. reflexivity.
Defined.

(** ** swizzle / unswizzle *)

Lemma swizzle_exact (region object : Z) :
  0 <= region -> 0 <= object -> region + object < wordsize ->
  swizzle region object = region + object.
Proof.
  intros Hr Ho Hs. unfold swizzle.
  rewrite (u64_small region), (u64_small object) by lia.
  apply u64_small. lia.
Qed.

Lemma unswizzle_exact (region pointer : Z) :
  0 <= region <= pointer -> pointer < wordsize ->
  pointer - region < 2 ^ 63 ->
  unswizzle region pointer = pointer - region.
Proof.
  intros Hr Hp Hd. unfold unswizzle.
  rewrite (u64_small region), (u64_small pointer) by lia.
  rewrite <- (s64_u64 (pointer - region)) at 2 by lia.
  unfold s64, u64. rewrite Zmod_mod. reflexivity.
Qed.

Lemma unswizzle_swizzle_s64 (region object : Z) :
  unswizzle region (swizzle region object) = s64 object.
Proof.
  unfold unswizzle, swizzle, s64, u64, wordsize.
  rewrite Zmod_mod.
  replace ((((region mod 2 ^ 64 + object mod 2 ^ 64) mod 2 ^ 64
             - region mod 2 ^ 64)) mod 2 ^ 64)
    with (object mod 2 ^ 64); [reflexivity |].
  rewrite Zminus_mod_idemp_l.
  replace (region mod 2 ^ 64 + object mod 2 ^ 64 - region mod 2 ^ 64)
    with (object mod 2 ^ 64) by lia.
  rewrite Zmod_mod. reflexivity.
Qed.

(** An offset handed out by [region_alloc] is an [intptr_t]. *)
Lemma region_alloc_range (ndebug : bool) (fuel : nat) (region size : Z)
    (m m' : mapping) (o : Z) :
  region_alloc ndebug fuel region size m = Ok o m' ->
  - 2 ^ 63 <= o < 2 ^ 63.
Proof.
  intros H. unfold region_alloc in H.
  apply bind_inv in H as (_ & m1 & _ & H).
  destruct (is_small_object_size size); [| discriminate].
  destruct (size =? 0).
  { inversion H. lia. }
  apply bind_inv in H as (index & m2 & _ & H).
  unfold cache_alloc in H.
  apply bind_inv in H as (_ & m3 & _ & H).
  apply bind_inv in H as (_ & m4 & _ & H).
  apply bind_inv in H as (pl & m5 & _ & H).
  apply bind_inv in H as (r & m6 & _ & H).
  destruct r as [slab |].
  - apply bind_inv in H as (fc & m7 & _ & H).
    apply bind_inv in H as (_ & m8 & _ & H).
    apply bind_inv in H as (object_offset & m9 & _ & H).
    apply bind_inv in H as (nx & m10 & _ & H).
    apply bind_inv in H as (_ & m11 & _ & H).
    inversion H. apply s64_range.
  - inversion H. lia.
Qed.


(** C9: for every offset [o] that [region_alloc] returns,
    [unswizzle (swizzle o)] is [o]; [swizzle] is the base plus the offset
    and [unswizzle] the address minus the base, neither looks at the
    mapping or checks its argument. *)
Theorem unswizzle_swizzle (ndebug : bool) (fuel : nat) (region size : Z)
    (m m' : mapping) (o : Z) :
  region_alloc ndebug fuel region size m = Ok o m' ->
  unswizzle region (swizzle region o) = o
  /\ (0 <= region -> 0 <= o -> region + o < wordsize ->
      swizzle region o = region + o)
  /\ (forall pointer : Z,
         0 <= region <= pointer -> pointer < wordsize ->
         pointer - region < 2 ^ 63 ->
         unswizzle region pointer = pointer - region).
Proof.
  intros H. apply region_alloc_range in H.
  split; [| split].
  - rewrite unswizzle_swizzle_s64.
    rewrite <- (s64_u64 o) at 2 by exact H.
    unfold s64, u64. rewrite Zmod_mod. reflexivity.
  - apply swizzle_exact.
  - intros pointer. apply unswizzle_exact.
Qed.



Lemma unswizzle_swizzle_witness :
  unswizzle R0 (swizzle R0 4160) = 4160
  /\ swizzle R0 4160 = R0 + 4160
  /\ unswizzle R0 (R0 + 4160) = 4160.
Proof.
  assert (V : value (region_alloc true fuel0 R0 8 initialized) = Some 4160).
  { vm_compute. reflexivity. }
  destruct (unswizzle_swizzle true fuel0 R0 8 initialized _ 4160
              (value_final _ _ fresh V)) as (H1 & H2 & H3).
  split; [exact H1 | split].
  - apply H2.
    + discriminate.
    + discriminate.
    + reflexivity.
  - apply (H3 (R0 + 4160)).
    + split; discriminate.
    + reflexivity.
    + reflexivity.
Defined.

(** ** The 20-page scenario, run on the code *)

(** C1: on a fresh 20-page region [region_alloc] of 32 bytes returns the
    non-zero offset 4192, and [is_object] on that offset, straight after,
    returns false. *)
Theorem alloc_32_not_is_object (ndebug : bool) :
  value (alloc_then_is_object ndebug 32 fresh) = Some (R0, 4192, false).
Proof. destruct ndebug; vm_compute; reflexivity. Qed.

(** C2: on a fresh 20-page region, a 32-byte allocation (4192) followed by
    its [region_free] and another 32-byte allocation gives 0, not 4192. *)
Theorem free_then_alloc_not_lifo (ndebug : bool) :
  value (alloc_free_alloc ndebug 32 fresh) = Some (R0, 4192, 0).
Proof. destruct ndebug; vm_compute; reflexivity. Qed.

(** C4: the offset 4192 returned by a 32-byte allocation meets the four
    conditions of the specification (above [pages], below [size], 8-byte
    aligned, page marked in exactly one bitmap), yet [is_object] returns
    false on it. *)
Theorem is_object_misses_marked_page (ndebug : bool) :
  value (alloc_then_both_is_object ndebug 32 fresh)
  = Some (4192, true, false).
Proof. destruct ndebug; vm_compute; reflexivity. Qed.

(** C5: the slab formatted for cache 0 (505 objects of 8 bytes) at offset
    4096 gets [objects] = 4160, where the specification's formula gives
    4152; the last slot then starts on the page boundary 8192 instead of
    ending there, and the first slot, the head of the free list, holds 0
    instead of the offset of the second slot. *)
Theorem allocate_slab_objects_off_by_one (ndebug : bool) :
  value (format_slab ndebug fresh)
  = Some (SlabReport 4096 505 8 4160 4160 0 4176 0)
  /\ spec_slab_objects 4096 505 8 = 4152
  /\ 4160 + (505 - 1) * 8 = 4096 + PAGE_SIZE.
Proof.
  split; [destruct ndebug; vm_compute; reflexivity |].
  split; reflexivity.
Qed.

(** C6: after [region_init] and one 8-byte allocation, the slab at 4096
    records 504 free objects while the walk of its free list from the head
    visits no slot at all. *)
Theorem free_list_shorter_than_count (ndebug : bool) :
  value (alloc_then_walk ndebug fresh) = Some (4160, 504, []).
Proof. destruct ndebug; vm_compute; reflexivity. Qed.

(** C7: the first slab takes page 4096; [allocate_page] leaves the hint on
    4096, a page whose caches bit is by then set, and the next slab takes
    page 4096 again. *)
Theorem allocate_page_repeats_page (ndebug : bool) :
  value (two_slabs ndebug fresh) = Some (4096, 4096, true, 4096).
Proof. destruct ndebug; vm_compute; reflexivity. Qed.

(** C10, as stated, fails: after [region_init] and an 8-byte allocation
    (4160), [region_free] of that offset changes the head of the slab's
    free list, stored in the region at offset 4136, from 0 to 4160. *)
Lemma region_free_changes_region :
  value (free_changes_head true fresh) = Some (4160, 0, 4160)
  /\ value (free_changes_head false fresh) = Some (4160, 0, 4160).
Proof. split; vm_compute; reflexivity. Qed.

(** ** region_free *)

Lemma assert_passes (ndebug : bool) (cond : M bool) (m : mapping) :
  readonly cond -> value (cond m) = Some true ->
  assert ndebug cond m = Ok tt m.
Proof.
  intros Hr Hv. unfold assert. destruct ndebug; [reflexivity |].
  rewrite (bind_Ok _ _ m m true (readonly_value _ _ _ Hr Hv)).
  reflexivity.
Qed.

Lemma assert_region (ndebug : bool) (region : Z) (m : mapping) :
  region <> 0 -> assert ndebug (ret (negb (region =? 0))) m = Ok tt m.
Proof.
  intros H. apply assert_passes; [apply readonly_ret |].
  simpl. apply Z.eqb_neq in H. rewrite H. reflexivity.
Qed.

(** one step of a run: the head of a bind is read-only and its value known *)
Ltac step H :=
  match type of H with
  | value (?c ?m) = Some ?a =>
      rewrite (bind_Ok c _ m m a (readonly_value c m a ltac:(readonly) H))
  end;
  cbv beta.

(** C10, amended: [region_free] returns with the mapping exactly as it was
    whenever the offset is not above [pages], not below [size], not 8-byte
    aligned, or [is_cache_object] is false for it; only an offset that
    passes all four tests reaches [cache_free]. *)
Theorem region_free_frame (ndebug : bool) (fuel : nat) (region object : Z)
    (m : mapping) (pages size : Z) :
  region <> 0 ->
  value (load64 (region_pages region) m) = Some pages ->
  value (load64 (region_size region) m) = Some size ->
  u64 object <= pages
  \/ u64 object >= size
  \/ Z.land object 7 <> 0
  \/ value (is_cache_object region object m) = Some false ->
  region_free ndebug fuel region object m = Ok tt m.
Proof.
  intros Hregion Hpages Hsize H. unfold region_free.
  rewrite (bind_Ok _ _ m m tt (assert_region ndebug region m Hregion)).
  step Hpages.
  destruct (Z.leb_spec (u64 object) pages) as [| Hlo]; [reflexivity |].
  step Hsize.
  destruct (Z.geb_spec (u64 object) size) as [| Hhi]; [reflexivity |].
  destruct (Z.eqb_spec (Z.land object 7) 0) as [Hal |]; [| reflexivity].
  change (negb true) with false. cbv iota.
  destruct H as [H | [H | [H | H]]]; try lia.
  rewrite (bind_Ok _ _ m m false
             (readonly_value _ _ _ (readonly_is_cache_object _ _) H)).
  reflexivity.
Qed.

Lemma region_free_frame_witness :
  region_free true fuel0 R0 4100 initialized = Ok tt initialized
  /\ region_free false fuel0 R0 8192 initialized = Ok tt initialized.
Proof.
  split.
  - apply (region_free_frame true fuel0 R0 4100 initialized 4096 81920).
    + discriminate.
    + vm_compute. reflexivity.
    + vm_compute. reflexivity.
    + right. right. left. discriminate.
  - apply (region_free_frame false fuel0 R0 8192 initialized 4096 81920).
    + discriminate.
    + vm_compute. reflexivity.
    + vm_compute. reflexivity.
    + right. right. right. vm_compute. reflexivity.
Defined.

(** The double-free scan never leaves a non-empty list: its body does not
    advance [free_object]. *)
Lemma cache_free_scan_diverges (ndebug : bool) (n : nat)
    (region object next_page free_object word : Z) (m : mapping) :
  free_object <> 0 ->
  free_object <> u64 object ->
  free_object < next_page ->
  value (load64 (swizzle region free_object) m) = Some word ->
  cache_free_scan ndebug n region object next_page free_object m = OutOfFuel.
Proof.
  intros Hnz Hne Hlt Hw.
  induction n as [| n IH]; simpl.
  - apply Z.eqb_neq in Hnz. rewrite Hnz. reflexivity.
  - pose proof Hnz as Hz. apply Z.eqb_neq in Hz. rewrite Hz.
    change (negb false) with true. cbv iota.
    rewrite (bind_Ok _ _ m m tt).
    2:{ apply assert_passes; [apply readonly_ret |]. simpl.
        apply Z.eqb_neq in Hne. rewrite Hne. reflexivity. }
    rewrite (bind_Ok _ _ m m tt).
    2:{ apply assert_passes; [apply readonly_ret |]. simpl.
        apply Z.ltb_lt in Hlt. rewrite Hlt. reflexivity. }
    step Hw. exact IH.
Qed.

(** [region_free] on an offset that passes its guards never returns when the
    free list of the slab is not empty: whatever the fuel, the double-free
    scan of [cache_free] is still running. *)
Lemma region_free_never_returns (ndebug : bool) (fuel : nat)
    (region object : Z) (m : mapping)
    (pages size index owner head word : Z) :
  let slab := swizzle region (Z.land (u64 object) PAGE_MASK) in
  region <> 0 ->
  value (load64 (region_pages region) m) = Some pages ->
  value (load64 (region_size region) m) = Some size ->
  pages < u64 object < size ->
  Z.land object 7 = 0 ->
  value (is_cache_object region object m) = Some true ->
  value (object_cache region object m) = Some index ->
  u64 index < sizeof_caches_count ->
  value (load64 (slab_cache slab) m) = Some owner ->
  swizzle region owner = u64 (region_caches_cache region (u64 index)) ->
  value (load64 (list_list (slab_free_objects slab)) m) = Some head ->
  head <> 0 ->
  head <> u64 object ->
  head < u64 (Z.land (u64 object) PAGE_MASK + PAGE_SIZE) ->
  value (load64 (swizzle region head) m) = Some word ->
  region_free ndebug fuel region object m = OutOfFuel.
Proof.
  intros slab Hregion Hpages Hsize [Hlo Hhi] Hal Hco Hoc Hidx Hown Hsw
         Hhead Hnz Hne Hlt Hword.
  unfold region_free.
  rewrite (bind_Ok _ _ m m tt (assert_region ndebug region m Hregion)).
  step Hpages.
  destruct (Z.leb_spec (u64 object) pages) as [| _]; [lia |].
  step Hsize.
  destruct (Z.geb_spec (u64 object) size) as [| _]; [lia |].
  rewrite Hal. change (negb (0 =? 0)) with false. cbv iota.
  rewrite (bind_Ok _ _ m m true
             (readonly_value _ _ _ (readonly_is_cache_object _ _) Hco)).
  rewrite (bind_Ok _ _ m m index
             (readonly_value _ _ _ (readonly_object_cache _ _) Hoc)).
  unfold cache_free. fold slab.
  rewrite (bind_Ok _ _ m m tt (assert_region ndebug region m Hregion)).
  rewrite (bind_Ok _ _ m m tt).
  2:{ apply assert_passes; [apply readonly_ret |]. simpl.
      apply Z.ltb_lt in Hidx. rewrite Hidx. reflexivity. }
  rewrite (bind_Ok _ _ m m tt).
  2:{ apply assert_passes; [readonly |].
      rewrite (bind_Ok _ _ m m owner
                 (readonly_value _ _ _ (readonly_load64 _) Hown)).
      simpl. rewrite Hsw, Z.eqb_refl. reflexivity. }
  step Hhead.
  apply bind_OutOfFuel.
  apply (cache_free_scan_diverges ndebug fuel region object _ head word m);
    assumption.
Qed.

(** C3: on a fresh 20-page region, allocate 8 bytes (4160) and 16 bytes
    (4176), free the first: [region_free] of the second, an offset still
    allocated, then never returns, with or without assertions and whatever
    the fuel. *)
Theorem region_free_diverges (ndebug : bool) (fuel : nat) :
  value (two_allocs_one_free ndebug fresh) = Some (R0, 4160, 4176)
  /\ region_free ndebug fuel R0 4176
       (final (two_allocs_one_free ndebug fresh) fresh) = OutOfFuel.
Proof.
  split; [destruct ndebug; vm_compute; reflexivity |].
  apply (region_free_never_returns ndebug fuel R0 4176 _
           4096 81920 1 152 4160 0);
    try (destruct ndebug; vm_compute; reflexivity);
    try discriminate.
  split; reflexivity.
Qed.

(** ** aligned_size *)

(** X1: with [a] the alignment ([align], or 8 when [align] is 0) and no
    64-bit wrap-around, [aligned_size size align] is the smallest positive
    multiple of [a] that is at least [size]. *)
Theorem aligned_size_smallest_multiple (size align : Z) :
  0 <= size -> 0 <= align -> size + align + 8 <= wordsize ->
  let a := if align =? 0 then 8 else align in
  let r := aligned_size size align in
  r mod a = 0 /\ size <= r /\ 0 < r /\ r - a < Z.max size 1.
Proof.
  intros Hs Ha Hw a r. unfold r, aligned_size. fold a.
  assert (Hapos : 0 < a).
  { unfold a. destruct (Z.eqb_spec align 0); lia. }
  assert (Hale : a <= align + 8).
  { unfold a. destruct (Z.eqb_spec align 0); lia. }
  destruct (Z.gtb_spec a size) as [Hgt | Hle].
  - rewrite Z_mod_same_full. lia.
  - unfold wordsize in Hw.
    rewrite (u64_small (size + (a - 1))) by (unfold wordsize; lia).
    pose proof (Z.div_mod (size + (a - 1)) a ltac:(lia)) as Hdm.
    pose proof (Z.mod_pos_bound (size + (a - 1)) a Hapos) as Hmb.
    set (q := (size + (a - 1)) / a) in *.
    assert (Hq : 1 <= q) by nia.
    rewrite u64_small by (unfold wordsize; nia).
    split; [rewrite Z.mul_comm; apply Z_mod_mult |].
    nia.
Qed.

Lemma aligned_size_smallest_multiple_witness :
  aligned_size 20 8 mod 8 = 0 /\ 20 <= aligned_size 20 8
  /\ 0 < aligned_size 20 8 /\ aligned_size 20 8 - 8 < Z.max 20 1.
Proof.
  apply (aligned_size_smallest_multiple 20 8); vm_compute; discriminate.
Defined.

(** ** small_object_cache *)

Lemma best_fit_table :
  forallb (fun n => match alloc_size_index !! (n / 8)%nat with
                    | Some index => best_fit (Z.of_nat (S n)) index
                    | None => false
                    end) (seq 0 256) = true.
Proof. vm_compute. reflexivity. Qed.

(** X2: for every size from 1 to 256, [small_object_cache] returns, without
    touching the mapping, the index of a preconfigured cache whose object
    size is at least [size], and no preconfigured cache that fits is
    smaller. *)
Theorem small_object_cache_best_fit (ndebug : bool) (size : Z) (m : mapping) :
  1 <= size <= 256 ->
  exists (index : Z) (c : alloc_cache),
    small_object_cache ndebug size m = Ok index m
    /\ alloc_caches !! Z.to_nat index = Some c
    /\ size <= ac_size c
    /\ forall c', In c' alloc_caches -> size <= ac_size c' ->
                  ac_size c <= ac_size c'.
Proof.
  intros Hsize.
  pose proof best_fit_table as T. rewrite forallb_forall in T.
  specialize (T (Z.to_nat (size - 1))).
  assert (Hin : In (Z.to_nat (size - 1)) (seq 0 256)).
  { apply in_seq. lia. }
  specialize (T Hin).
  replace (Z.of_nat (S (Z.to_nat (size - 1)))) with size in T by lia.
  assert (Hidx : Z.to_nat (Z.shiftr (u64 (size - 1)) 3)
                 = (Z.to_nat (size - 1) / 8)%nat).
  { rewrite u64_small by (unfold wordsize; lia).
    rewrite Z.shiftr_div_pow2 by lia. change (2 ^ 3) with 8.
    rewrite Z2Nat.inj_div by lia. reflexivity. }
  unfold small_object_cache.
  rewrite (bind_Ok _ _ m m tt).
  2:{ apply assert_passes; [apply readonly_ret |]. simpl.
      destruct (Z.leb_spec size 256); [reflexivity | lia]. }
  rewrite Hidx.
  destruct (alloc_size_index !! (Z.to_nat (size - 1) / 8)%nat)
    as [index |]; [| discriminate].
  unfold best_fit in T.
  destruct (alloc_caches !! Z.to_nat index) as [c |] eqn:Ec; [| discriminate].
  apply andb_prop in T as [T1 T2].
  exists index, c. split; [reflexivity |]. split; [exact Ec |].
  split; [apply Z.leb_le; exact T1 |].
  intros c' Hc' Hfit. rewrite forallb_forall in T2.
  specialize (T2 c' Hc'). apply orb_prop in T2 as [T2 | T2].
  - apply Z.ltb_lt in T2. lia.
  - apply Z.leb_le. exact T2.
Qed.

Lemma small_object_cache_best_fit_witness :
  exists (index : Z) (c : alloc_cache),
    small_object_cache false 7 fresh = Ok index fresh
    /\ alloc_caches !! Z.to_nat index = Some c
    /\ 7 <= ac_size c
    /\ forall c', In c' alloc_caches -> 7 <= ac_size c' ->
                  ac_size c <= ac_size c'.
Proof.
  apply (small_object_cache_best_fit false 7 fresh). split; discriminate.
Defined.

(** ** Memory accesses as functions of the mapping *)

Lemma in_bounds_covers (m : mapping) (p : Z) :
  covers m p 1 -> in_bounds m p = true.
Proof.
  intros [H1 H2]. unfold in_bounds.
  apply andb_true_intro. split; [apply Z.leb_le | apply Z.ltb_lt]; lia.
Qed.

Lemma covers_part (m : mapping) (p n q k : Z) :
  covers m p n -> p <= q -> q + k <= p + n -> covers m q k.
Proof. unfold covers. lia. Qed.

Lemma load8_run (m : mapping) (p : Z) :
  covers m p 1 -> load8 p m = Ok (byte_at m p) m.
Proof. intros H. unfold load8. rewrite in_bounds_covers; [reflexivity | exact H]. Qed.

Lemma store8_run (m : mapping) (p v : Z) :
  covers m p 1 -> store8 p v m = Ok tt (poke m p v).
Proof. intros H. unfold store8. rewrite in_bounds_covers; [reflexivity | exact H]. Qed.

Lemma byte_at_poke (m : mapping) (p v q : Z) :
  byte_at (poke m p v) q = if q =? p then v mod 256 else byte_at m q.
Proof.
  unfold byte_at, poke. simpl.
  destruct (Z.eqb_spec q p) as [-> | Hne].
  - rewrite lookup_insert_eq. reflexivity.
  - rewrite lookup_insert_ne by lia. reflexivity.
Qed.

Lemma covers_poke (m : mapping) (p v q n : Z) :
  covers (poke m p v) q n <-> covers m q n.
Proof. reflexivity. Qed.

Lemma load_le_run (n : nat) (m : mapping) (p : Z) :
  covers m p (Z.of_nat n) -> load_le n p m = Ok (peek_le n m p) m.
Proof.
  revert p. induction n as [| n IH]; intros p H; [reflexivity |].
  cbn [load_le peek_le].
  rewrite (bind_Ok _ _ m m (byte_at m p)).
  2:{ apply load8_run. unfold covers in *. lia. }
  rewrite (bind_Ok _ _ m m (peek_le n m (p + 1))).
  2:{ apply IH. unfold covers in *. lia. }
  reflexivity.
Qed.

Lemma base_poke_le (n : nat) (m : mapping) (p v : Z) :
  base (poke_le n m p v) = base m.
Proof.
  revert m p v. induction n as [| n IH]; intros m p v; [reflexivity |].
  cbn [poke_le]. rewrite IH. reflexivity.
Qed.

Lemma msize_poke_le (n : nat) (m : mapping) (p v : Z) :
  msize (poke_le n m p v) = msize m.
Proof.
  revert m p v. induction n as [| n IH]; intros m p v; [reflexivity |].
  cbn [poke_le]. rewrite IH. reflexivity.
Qed.

Lemma store_le_run (n : nat) (m : mapping) (p v : Z) :
  covers m p (Z.of_nat n) -> store_le n p v m = Ok tt (poke_le n m p v).
Proof.
  revert m p v. induction n as [| n IH]; intros m p v H; [reflexivity |].
  cbn [store_le poke_le].
  rewrite (bind_Ok _ _ m (poke m p v) tt).
  2:{ apply store8_run. unfold covers in *. lia. }
  apply IH. apply covers_poke. unfold covers in *. lia.
Qed.

Lemma byte_at_poke_le (n : nat) (m : mapping) (p v q : Z) :
  byte_at (poke_le n m p v) q
  = if (p <=? q) && (q <? p + Z.of_nat n)
    then (v / 256 ^ (q - p)) mod 256
    else byte_at m q.
Proof.
  revert m p v. induction n as [| n IH]; intros m p v.
  - cbn [poke_le].
    destruct (Z.leb_spec p q), (Z.ltb_spec q (p + Z.of_nat 0));
      simpl; try reflexivity; lia.
  - cbn [poke_le]. rewrite IH, byte_at_poke.
    destruct (Z.leb_spec (p + 1) q), (Z.ltb_spec q (p + 1 + Z.of_nat n)),
             (Z.leb_spec p q), (Z.ltb_spec q (p + Z.of_nat (S n))),
             (Z.eqb_spec q p); simpl; try lia; try reflexivity.
    + rewrite Z.div_div by lia.
      replace (256 * 256 ^ (q - (p + 1))) with (256 ^ (q - p)); [reflexivity |].
      replace (q - p) with (Z.succ (q - (p + 1))) by lia.
      rewrite Z.pow_succ_r by lia. reflexivity.
    + subst q. replace (p - p) with 0 by lia.
      rewrite Z.pow_0_r, Z.div_1_r. reflexivity.
Qed.

Lemma peek_le_ext (n : nat) (m m' : mapping) (p : Z) :
  (forall q, p <= q < p + Z.of_nat n -> byte_at m' q = byte_at m q) ->
  peek_le n m' p = peek_le n m p.
Proof.
  revert p. induction n as [| n IH]; intros p H; [reflexivity |].
  cbn [peek_le]. rewrite (H p) by lia. rewrite IH; [reflexivity |].
  intros q Hq. apply H. lia.
Qed.

Lemma peek_le_digits (n : nat) (m : mapping) (p v : Z) :
  (forall i, 0 <= i < Z.of_nat n ->
             byte_at m (p + i) = (v / 256 ^ i) mod 256) ->
  peek_le n m p = v mod 256 ^ Z.of_nat n.
Proof.
  revert p v. induction n as [| n IH]; intros p v H.
  - cbn [peek_le]. change (256 ^ Z.of_nat 0) with 1. rewrite Z.mod_1_r.
    reflexivity.
  - cbn [peek_le].
    rewrite (IH (p + 1) (v / 256)).
    + specialize (H 0 ltac:(lia)).
      rewrite Z.add_0_r, Z.pow_0_r, Z.div_1_r in H. rewrite H.
      rewrite Nat2Z.inj_succ, Z.pow_succ_r by lia.
      rewrite Z.rem_mul_r by lia. reflexivity.
    + intros i Hi. specialize (H (i + 1) ltac:(lia)).
      replace (p + 1 + i) with (p + (i + 1)) by lia. rewrite H.
      rewrite Z.div_div by lia.
      replace (i + 1) with (Z.succ i) by lia.
      rewrite Z.pow_succ_r by lia. reflexivity.
Qed.

Lemma peek_poke_same (n : nat) (m : mapping) (p v : Z) :
  peek_le n (poke_le n m p v) p = v mod 256 ^ Z.of_nat n.
Proof.
  apply peek_le_digits. intros i Hi. rewrite byte_at_poke_le.
  destruct (Z.leb_spec p (p + i)), (Z.ltb_spec (p + i) (p + Z.of_nat n));
    simpl; try lia.
  replace (p + i - p) with i by lia. reflexivity.
Qed.

Lemma peek_poke_other (k n : nat) (m : mapping) (p v q : Z) :
  q + Z.of_nat k <= p \/ p + Z.of_nat n <= q ->
  peek_le k (poke_le n m p v) q = peek_le k m q.
Proof.
  intros H. apply peek_le_ext. intros r Hr. rewrite byte_at_poke_le.
  destruct (Z.leb_spec p r), (Z.ltb_spec r (p + Z.of_nat n));
    simpl; try reflexivity; lia.
Qed.

Lemma base_fill (n : nat) (m : mapping) (p v : Z) :
  base (fill n m p v) = base m.
Proof.
  revert m p. induction n as [| n IH]; intros m p; [reflexivity |].
  cbn [fill]. rewrite IH. reflexivity.
Qed.

Lemma msize_fill (n : nat) (m : mapping) (p v : Z) :
  msize (fill n m p v) = msize m.
Proof.
  revert m p. induction n as [| n IH]; intros m p; [reflexivity |].
  cbn [fill]. rewrite IH. reflexivity.
Qed.

Lemma memset_run (n : nat) (m : mapping) (p v : Z) :
  covers m p (Z.of_nat n) -> memset p v n m = Ok tt (fill n m p v).
Proof.
  revert m p. induction n as [| n IH]; intros m p H; [reflexivity |].
  cbn [memset fill].
  rewrite (bind_Ok _ _ m (poke m p v) tt).
  2:{ apply store8_run. unfold covers in *. lia. }
  apply IH. apply covers_poke. unfold covers in *. lia.
Qed.

Lemma byte_at_fill (n : nat) (m : mapping) (p v q : Z) :
  byte_at (fill n m p v) q
  = if (p <=? q) && (q <? p + Z.of_nat n) then v mod 256 else byte_at m q.
Proof.
  revert m p. induction n as [| n IH]; intros m p.
  - cbn [fill].
    destruct (Z.leb_spec p q), (Z.ltb_spec q (p + Z.of_nat 0));
      simpl; try reflexivity; lia.
  - cbn [fill]. rewrite IH, byte_at_poke.
    destruct (Z.leb_spec (p + 1) q), (Z.ltb_spec q (p + 1 + Z.of_nat n)),
             (Z.leb_spec p q), (Z.ltb_spec q (p + Z.of_nat (S n))),
             (Z.eqb_spec q p); simpl; try lia; reflexivity.
Qed.

Lemma peek_fill_other (k n : nat) (m : mapping) (p v q : Z) :
  q + Z.of_nat k <= p \/ p + Z.of_nat n <= q ->
  peek_le k (fill n m p v) q = peek_le k m q.
Proof.
  intros H. apply peek_le_ext. intros r Hr. rewrite byte_at_fill.
  destruct (Z.leb_spec p r), (Z.ltb_spec r (p + Z.of_nat n));
    simpl; try reflexivity; lia.
Qed.

Lemma peek_fill_zero (k n : nat) (m : mapping) (p q : Z) :
  p <= q -> q + Z.of_nat k <= p + Z.of_nat n ->
  peek_le k (fill n m p 0) q = 0.
Proof.
  intros H1 H2.
  rewrite (peek_le_digits k _ q 0).
  - apply Z.mod_0_l. apply Z.pow_nonzero; lia.
  - intros i Hi. rewrite byte_at_fill.
    destruct (Z.leb_spec p (q + i)), (Z.ltb_spec (q + i) (p + Z.of_nat n));
      simpl; try lia.
    rewrite Z.div_0_l by (apply Z.pow_nonzero; lia). reflexivity.
Qed.

Lemma base_poke_list (src : list Z) (m : mapping) (p : Z) :
  base (poke_list src m p) = base m.
Proof.
  revert m p. induction src as [| b src IH]; intros m p; [reflexivity |].
  cbn [poke_list]. rewrite IH. reflexivity.
Qed.

Lemma msize_poke_list (src : list Z) (m : mapping) (p : Z) :
  msize (poke_list src m p) = msize m.
Proof.
  revert m p. induction src as [| b src IH]; intros m p; [reflexivity |].
  cbn [poke_list]. rewrite IH. reflexivity.
Qed.

Lemma memcpy_const_run (src : list Z) (m : mapping) (p : Z) :
  covers m p (Z.of_nat (List.length src)) ->
  memcpy_const p src m = Ok tt (poke_list src m p).
Proof.
  revert m p. induction src as [| b src IH]; intros m p H; [reflexivity |].
  cbn [memcpy_const poke_list]. cbn [List.length] in H.
  rewrite (bind_Ok _ _ m (poke m p b) tt).
  2:{ apply store8_run. unfold covers in *. lia. }
  apply IH. apply covers_poke. unfold covers in *. lia.
Qed.

Lemma byte_at_poke_list_other (src : list Z) (m : mapping) (p q : Z) :
  q < p \/ p + Z.of_nat (List.length src) <= q ->
  byte_at (poke_list src m p) q = byte_at m q.
Proof.
  revert m p. induction src as [| b src IH]; intros m p H; [reflexivity |].
  cbn [poke_list]. cbn [List.length] in H.
  rewrite IH by lia. rewrite byte_at_poke.
  destruct (Z.eqb_spec q p); [lia | reflexivity].
Qed.

Lemma peek_poke_list_other (k : nat) (src : list Z) (m : mapping) (p q : Z) :
  q + Z.of_nat k <= p \/ p + Z.of_nat (List.length src) <= q ->
  peek_le k (poke_list src m p) q = peek_le k m q.
Proof.
  intros H. apply peek_le_ext. intros r Hr.
  apply byte_at_poke_list_other. lia.
Qed.

(** ** Bit masks *)

Lemma land_bit (x k : Z) :
  0 <= k ->
  Z.land x (Z.shiftl 1 k) = if Z.testbit x k then Z.shiftl 1 k else 0.
Proof.
  intros Hk. rewrite Z.shiftl_1_l.
  apply Z.bits_inj'. intros n Hn.
  rewrite Z.land_spec, Z.pow2_bits_eqb by lia.
  destruct (Z.eqb_spec k n) as [-> | Hne].
  - destruct (Z.testbit x n) eqn:E.
    + rewrite Z.pow2_bits_true by lia. reflexivity.
    + rewrite Z.bits_0. reflexivity.
  - rewrite andb_false_r.
    destruct (Z.testbit x k).
    + rewrite Z.pow2_bits_false by lia. reflexivity.
    + rewrite Z.bits_0. reflexivity.
Qed.

(** the shift count [(bit ^ 7) & 0xf] of [set_bit] and [get_bit] *)
Lemma bit_shift_count (bit : Z) :
  0 <= bit ->
  Z.land (Z.lxor bit 7) 15
  = if bit mod 16 <? 8 then 7 - bit mod 8 else 23 - bit mod 16.
Proof.
  intros Hbit.
  change 15 with (Z.ones 4). rewrite Z.land_ones by lia.
  assert (E : Z.lxor bit 7 mod 2 ^ 4 = Z.lxor (bit mod 2 ^ 4) 7).
  { apply Z.bits_inj'. intros n Hn.
    destruct (Z_lt_le_dec n 4) as [Hlt | Hge].
    - rewrite Z.mod_pow2_bits_low by lia.
      rewrite !Z.lxor_spec. rewrite Z.mod_pow2_bits_low by lia. reflexivity.
    - rewrite Z.mod_pow2_bits_high by lia.
      rewrite Z.lxor_spec. rewrite Z.mod_pow2_bits_high by lia.
      change 7 with (Z.ones 3). rewrite Z.ones_spec_high by lia.
      reflexivity. }
  rewrite E. change (2 ^ 4) with 16.
  pose proof (Z.mod_pos_bound bit 16 ltac:(lia)) as Hr.
  assert (E8 : bit mod 8 = (bit mod 16) mod 8).
  { symmetry. apply Z.mod_mod_divide. exists 2. reflexivity. }
  rewrite E8.
  set (r := bit mod 16) in *.
  assert (Hcases : r = 0 \/ r = 1 \/ r = 2 \/ r = 3 \/ r = 4 \/ r = 5
                   \/ r = 6 \/ r = 7 \/ r = 8 \/ r = 9 \/ r = 10 \/ r = 11
                   \/ r = 12 \/ r = 13 \/ r = 14 \/ r = 15) by lia.
  repeat (destruct Hcases as [-> | Hcases]; [reflexivity |]).
  subst r. rewrite Hcases. reflexivity.
Qed.

Lemma lor_bit_low_byte (b k : Z) :
  0 <= k < 8 -> Z.testbit (Z.lor b (Z.shiftl 1 k) mod 256) k = true.
Proof.
  intros Hk. change 256 with (2 ^ 8).
  rewrite Z.mod_pow2_bits_low by lia.
  rewrite Z.lor_spec, Z.shiftl_1_l, Z.pow2_bits_true by lia.
  apply orb_true_r.
Qed.

Lemma lor_bit_high_byte (b k : Z) :
  8 <= k -> Z.lor b (Z.shiftl 1 k) mod 256 = b mod 256.
Proof.
  intros Hk. change 256 with (2 ^ 8).
  apply Z.bits_inj'. intros n Hn.
  destruct (Z_lt_le_dec n 8) as [Hlt | Hge].
  - rewrite !Z.mod_pow2_bits_low by lia.
    rewrite Z.lor_spec, Z.shiftl_1_l, Z.pow2_bits_false by lia.
    apply orb_false_r.
  - rewrite !Z.mod_pow2_bits_high by lia. reflexivity.
Qed.

Lemma land_bit_high_byte (b k : Z) :
  8 <= k -> Z.land b (Z.shiftl 1 k) mod 256 = 0.
Proof.
  intros Hk. rewrite land_bit by lia.
  destruct (Z.testbit b k); [| reflexivity].
  rewrite Z.shiftl_1_l.
  replace k with (8 + (k - 8)) by lia.
  rewrite Z.pow_add_r by lia. change (2 ^ 8) with 256.
  rewrite Z.mul_comm. apply Z_mod_mult.
Qed.

Lemma pow2_byte (k : Z) : 0 <= k < 8 -> Z.shiftl 1 k mod 256 = Z.shiftl 1 k.
Proof.
  intros Hk. rewrite Z.shiftl_1_l. apply Z.mod_small.
  split; [apply Z.pow_nonneg; lia |].
  change 256 with (2 ^ 8). apply Z.pow_lt_mono_r; lia.
Qed.

Lemma pow2_nonzero (k : Z) : 0 <= k -> Z.shiftl 1 k <> 0.
Proof. intros Hk. rewrite Z.shiftl_1_l. apply Z.pow_nonzero; lia. Qed.

(** ** set_bit / get_bit *)

(** X3: for a bit index whose bit 3 is clear ([bit mod 16 < 8]),
    [get_bit] after [set_bit] is non-zero, and [set_bit] changes no byte
    but the one at [bits + bit / 8]. *)
Theorem set_bit_get_bit (region bits size bit : Z) (m : mapping) :
  0 <= bit -> bit mod 16 < 8 ->
  covers m (swizzle region bits + Z.shiftr bit 3) 1 ->
  exists (m' : mapping) (b : Z),
    set_bit region bits size bit m = Ok tt m'
    /\ get_bit region bits size bit m' = Ok b m'
    /\ b <> 0
    /\ same_outside (swizzle region bits + Z.shiftr bit 3) 1 m m'.
Proof.
  intros Hbit Hlow Hcov.
  set (p := swizzle region bits + Z.shiftr bit 3) in *.
  set (k := Z.land (Z.lxor bit 7) 15).
  assert (Hk : 0 <= k < 8).
  { unfold k. rewrite bit_shift_count by lia.
    destruct (Z.ltb_spec (bit mod 16) 8); [| lia].
    pose proof (Z.mod_pos_bound bit 8 ltac:(lia)). lia. }
  exists (poke m p (Z.lor (byte_at m p) (Z.shiftl 1 k))).
  exists (Z.shiftl 1 k).
  split; [| split; [| split]].
  - unfold set_bit. fold p. fold k.
    rewrite (bind_Ok _ _ m m (byte_at m p) (load8_run m p Hcov)).
    apply store8_run. exact Hcov.
  - unfold get_bit. fold p. fold k.
    rewrite (bind_Ok _ _ _ _ _ (load8_run _ p ltac:(apply covers_poke; exact Hcov))).
    rewrite byte_at_poke, Z.eqb_refl.
    rewrite land_bit by lia. rewrite lor_bit_low_byte by lia.
    rewrite pow2_byte by lia. reflexivity.
  - apply pow2_nonzero. lia.
  - split; [reflexivity |]. split; [reflexivity |].
    intros q Hq. rewrite byte_at_poke.
    destruct (Z.eqb_spec q p); [lia | reflexivity].
Qed.

Lemma set_bit_get_bit_witness :
  exists (m' : mapping) (b : Z),
    set_bit R0 4072 24 1 fresh = Ok tt m'
    /\ get_bit R0 4072 24 1 m' = Ok b m'
    /\ b <> 0
    /\ same_outside (swizzle R0 4072 + Z.shiftr 1 3) 1 fresh m'.
Proof.
  apply (set_bit_get_bit R0 4072 24 1 fresh).
  - discriminate.
  - reflexivity.
  - split; vm_compute; discriminate.
Defined.

(** X4: for a bit index whose bit 3 is set ([8 <= bit mod 16]) the mask
    [1u << ((bit ^ 7) & 0xf)] lies above the byte: [get_bit] returns 0
    whatever the byte holds, and [set_bit] stores the byte back as it
    was. *)
Theorem get_bit_blind_to_high_half (region bits size bit : Z) (m : mapping) :
  0 <= bit -> 8 <= bit mod 16 ->
  covers m (swizzle region bits + Z.shiftr bit 3) 1 ->
  let p := swizzle region bits + Z.shiftr bit 3 in
  get_bit region bits size bit m = Ok 0 m
  /\ set_bit region bits size bit m = Ok tt (poke m p (byte_at m p))
  /\ get_bit region bits size bit (poke m p (byte_at m p))
     = Ok 0 (poke m p (byte_at m p)).
Proof.
  intros Hbit Hhigh Hcov p.
  set (k := Z.land (Z.lxor bit 7) 15).
  assert (Hk : 8 <= k).
  { unfold k. rewrite bit_shift_count by lia.
    pose proof (Z.mod_pos_bound bit 16 ltac:(lia)).
    destruct (Z.ltb_spec (bit mod 16) 8); lia. }
  split; [| split].
  - unfold get_bit. fold p. fold k.
    rewrite (bind_Ok _ _ m m (byte_at m p) (load8_run m p Hcov)).
    rewrite land_bit_high_byte by lia. reflexivity.
  - unfold set_bit. fold p. fold k.
    rewrite (bind_Ok _ _ m m (byte_at m p) (load8_run m p Hcov)).
    rewrite (store8_run m p _ Hcov). unfold poke.
    rewrite lor_bit_high_byte by lia. reflexivity.
  - unfold get_bit. fold p. fold k.
    rewrite (bind_Ok _ _ _ _ _ (load8_run _ p ltac:(apply covers_poke; exact Hcov))).
    rewrite land_bit_high_byte by lia. reflexivity.
Qed.

Lemma get_bit_blind_to_high_half_witness :
  get_bit R0 4072 24 9 fresh = Ok 0 fresh
  /\ set_bit R0 4072 24 9 fresh
     = Ok tt (poke fresh (swizzle R0 4072 + Z.shiftr 9 3)
                (byte_at fresh (swizzle R0 4072 + Z.shiftr 9 3)))
  /\ get_bit R0 4072 24 9
       (poke fresh (swizzle R0 4072 + Z.shiftr 9 3)
          (byte_at fresh (swizzle R0 4072 + Z.shiftr 9 3)))
     = Ok 0 (poke fresh (swizzle R0 4072 + Z.shiftr 9 3)
               (byte_at fresh (swizzle R0 4072 + Z.shiftr 9 3))).
Proof.
  apply (get_bit_blind_to_high_half R0 4072 24 9 fresh).
  - discriminate.
  - discriminate.
  - split; vm_compute; discriminate.
Defined.

(** ** Masks that clear low bits *)

Lemma land_clear_low (x k : Z) :
  0 <= x < wordsize -> 0 <= k <= 64 ->
  Z.land x (wordsize - 2 ^ k) = 2 ^ k * (x / 2 ^ k).
Proof.
  intros Hx Hk.
  assert (Emask : wordsize - 2 ^ k = Z.shiftl (Z.ones (64 - k)) k).
  { rewrite Z.ones_equiv, Z.shiftl_mul_pow2 by lia.
    unfold wordsize. replace 64 with ((64 - k) + k) at 1 by lia.
    rewrite Z.pow_add_r by lia. lia. }
  rewrite Emask.
  rewrite Z.mul_comm, <- Z.shiftl_mul_pow2, <- Z.shiftr_div_pow2 by lia.
  apply Z.bits_inj'. intros n Hn.
  rewrite Z.land_spec.
  destruct (Z_lt_le_dec n k) as [Hlow | Hhigh].
  - rewrite !Z.shiftl_spec_low by lia. apply andb_false_r.
  - rewrite !Z.shiftl_spec by lia. rewrite Z.shiftr_spec by lia.
    replace (n - k + k) with n by lia.
    destruct (Z_lt_le_dec n 64) as [Hin | Hout].
    + rewrite Z.ones_spec_low by lia. apply andb_true_r.
    + rewrite Z.ones_spec_high by lia. rewrite andb_false_r.
      symmetry. rewrite <- (Z.mod_small x (2 ^ 64)) by exact Hx.
      apply Z.mod_pow2_bits_high. lia.
Qed.

(** [x & PAGE_MASK] is the offset of the page [x] lies in. *)
Lemma land_PAGE_MASK (x : Z) :
  0 <= x < wordsize -> Z.land x PAGE_MASK = PAGE_SIZE * (x / PAGE_SIZE).
Proof.
  intros Hx. change PAGE_MASK with (wordsize - 2 ^ 12).
  change PAGE_SIZE with (2 ^ 12). apply land_clear_low; lia.
Qed.

Lemma page_probe (object : Z) :
  let bit := Z.land (u64 object) PAGE_MASK in
  Z.shiftr bit 3 = 512 * (u64 object / PAGE_SIZE)
  /\ Z.land (Z.lxor bit 7) 15 = 7.
Proof.
  intros bit. unfold bit.
  pose proof (u64_range object) as Hr.
  rewrite land_PAGE_MASK by exact Hr.
  assert (Hq : 0 <= u64 object / PAGE_SIZE).
  { apply Z.div_pos; [lia | reflexivity]. }
  set (q := u64 object / PAGE_SIZE) in *.
  split.
  - rewrite Z.shiftr_div_pow2 by lia. change (2 ^ 3) with 8.
    change PAGE_SIZE with (512 * 8).
    replace (512 * 8 * q) with (512 * q * 8) by lia.
    apply Z.div_mul. lia.
  - rewrite bit_shift_count by (unfold PAGE_SIZE; lia).
    assert (E16 : (PAGE_SIZE * q) mod 16 = 0).
    { change PAGE_SIZE with (256 * 16).
      replace (256 * 16 * q) with (256 * q * 16) by lia. apply Z_mod_mult. }
    assert (E8 : (PAGE_SIZE * q) mod 8 = 0).
    { change PAGE_SIZE with (512 * 8).
      replace (512 * 8 * q) with (512 * q * 8) by lia. apply Z_mod_mult. }
    rewrite E16, E8. reflexivity.
Qed.

Lemma mask_0x80 (b : Z) :
  negb (Z.land b (Z.shiftl 1 7) mod 256 =? 0) = Z.testbit b 7.
Proof.
  rewrite land_bit by lia. destruct (Z.testbit b 7); reflexivity.
Qed.

Lemma get_bit_run (region bits size bit : Z) (m : mapping) :
  covers m (swizzle region bits + Z.shiftr bit 3) 1 ->
  get_bit region bits size bit m
  = Ok (Z.land (byte_at m (swizzle region bits + Z.shiftr bit 3))
               (Z.shiftl 1 (Z.land (Z.lxor bit 7) 15)) mod 256) m.
Proof.
  intros Hcov. unfold get_bit.
  rewrite (bind_Ok _ _ m m _ (load8_run m _ Hcov)). reflexivity.
Qed.

(** ** is_cache_object / is_heap_object / is_object *)

(** X5: for an object in page number [n = offset / PAGE_SIZE],
    [is_cache_object] answers bit 7 of the byte [512 * n] bytes past the
    start of the heap bitset, and [is_heap_object] bit 7 of the byte
    [512 * n] bytes past the start of the caches bitset; neither writes. *)
Theorem object_tests_probe_past_bitmap (region object : Z) (m : mapping)
    (heap_bits heap_size cache_bits cache_size : Z) :
  value (load64 (region_heap_bitset_bits region) m) = Some heap_bits ->
  value (load64 (region_heap_bitset_size region) m) = Some heap_size ->
  value (load64 (region_caches_bitset_bits region) m) = Some cache_bits ->
  value (load64 (region_caches_bitset_size region) m) = Some cache_size ->
  let n := u64 object / PAGE_SIZE in
  covers m (swizzle region heap_bits + 512 * n) 1 ->
  covers m (swizzle region cache_bits + 512 * n) 1 ->
  is_cache_object region object m
  = Ok (Z.testbit (byte_at m (swizzle region heap_bits + 512 * n)) 7) m
  /\ is_heap_object region object m
     = Ok (Z.testbit (byte_at m (swizzle region cache_bits + 512 * n)) 7) m.
Proof.
  intros Hhb Hhs Hcb Hcs n Hcovh Hcovc.
  destruct (page_probe object) as [Ebyte Eshift].
  split.
  - unfold is_cache_object. step Hhb. step Hhs.
    rewrite (bind_Ok _ _ m m _ (get_bit_run _ _ _ _ m
               ltac:(rewrite Ebyte; exact Hcovh))).
    rewrite Ebyte, Eshift. fold n. unfold ret.
    rewrite mask_0x80. reflexivity.
  - unfold is_heap_object. step Hcb. step Hcs.
    rewrite (bind_Ok _ _ m m _ (get_bit_run _ _ _ _ m
               ltac:(rewrite Ebyte; exact Hcovc))).
    rewrite Ebyte, Eshift. fold n. unfold ret.
    rewrite mask_0x80. reflexivity.
Qed.

Lemma object_tests_probe_past_bitmap_witness :
  is_cache_object R0 4160 (after_alloc 8)
  = Ok (Z.testbit (byte_at (after_alloc 8)
                     (swizzle R0 4048 + 512 * (u64 4160 / PAGE_SIZE))) 7)
       (after_alloc 8)
  /\ is_heap_object R0 4160 (after_alloc 8)
     = Ok (Z.testbit (byte_at (after_alloc 8)
                        (swizzle R0 4072 + 512 * (u64 4160 / PAGE_SIZE))) 7)
          (after_alloc 8).
Proof.
  apply (object_tests_probe_past_bitmap R0 4160 (after_alloc 8)
           4048 24 4072 24).
  - vm_compute. reflexivity.
  - vm_compute. reflexivity.
  - vm_compute. reflexivity.
  - vm_compute. reflexivity.
  - split; vm_compute; discriminate.
  - split; vm_compute; discriminate.
Defined.

Lemma readonly_is_object (ndebug : bool) (region object : Z) :
  readonly (is_object ndebug region object).
Proof.
  unfold is_object.
  apply readonly_bind; [readonly |]. intros _.
  apply readonly_bind; [readonly |]. intros pages.
  destruct (u64 object <=? pages); [apply readonly_ret |].
  apply readonly_bind; [readonly |]. intros size.
  destruct (u64 object >=? size); [apply readonly_ret |].
  destruct (negb (Z.land object 7 =? 0)); [apply readonly_ret |].
  apply readonly_bind; [apply readonly_is_cache_object |]. intros c.
  destruct c; [apply readonly_ret |].
  apply readonly_bind; [apply readonly_is_heap_object |]. intros h.
  destruct h; apply readonly_ret.
Qed.

(** X6: [is_object] never changes the mapping, and it answers false for
    every offset that is not above [pages] (the null offset and the header
    page among them), not below [size], or not 8-byte aligned. *)
Theorem is_object_rejects (ndebug : bool) (region object : Z) (m : mapping)
    (pages size : Z) :
  region <> 0 ->
  value (load64 (region_pages region) m) = Some pages ->
  value (load64 (region_size region) m) = Some size ->
  u64 object <= pages \/ u64 object >= size \/ Z.land object 7 <> 0 ->
  is_object ndebug region object m = Ok false m
  /\ forall (o : Z) (b : bool) (m1 m2 : mapping),
       is_object ndebug region o m1 = Ok b m2 -> m2 = m1.
Proof.
  intros Hregion Hpages Hsize H. split.
  - unfold is_object.
    rewrite (bind_Ok _ _ m m tt (assert_region ndebug region m Hregion)).
    step Hpages.
    destruct (Z.leb_spec (u64 object) pages) as [| Hlo]; [reflexivity |].
    step Hsize.
    destruct (Z.geb_spec (u64 object) size) as [| Hhi]; [reflexivity |].
    destruct (Z.eqb_spec (Z.land object 7) 0) as [Hal |]; [| reflexivity].
    lia.
  - intros o b m1 m2 Hrun. exact (readonly_is_object ndebug region o m1 m2 b Hrun).
Qed.

Lemma is_object_rejects_witness :
  (is_object false R0 0 (after_alloc 8) = Ok false (after_alloc 8)
   /\ forall (o : Z) (b : bool) (m1 m2 : mapping),
        is_object false R0 o m1 = Ok b m2 -> m2 = m1)
  /\ (is_object true R0 4164 (after_alloc 8) = Ok false (after_alloc 8)
      /\ forall (o : Z) (b : bool) (m1 m2 : mapping),
           is_object true R0 o m1 = Ok b m2 -> m2 = m1).
Proof.
  split.
  - apply (is_object_rejects false R0 0 (after_alloc 8) 4096 81920).
    + discriminate.
    + vm_compute. reflexivity.
    + vm_compute. reflexivity.
    + left. vm_compute. discriminate.
  - apply (is_object_rejects true R0 4164 (after_alloc 8) 4096 81920).
    + discriminate.
    + vm_compute. reflexivity.
    + vm_compute. reflexivity.
    + right. right. vm_compute. discriminate.
Defined.

(** ** object_cache *)

(** X7: [object_cache] maps the owner recorded in a slab header back to the
    index of the cache: when the [cache] field of the slab holds
    [unswizzle] of the address of [caches.cache[index]], the result is
    [index]. *)
Theorem object_cache_recovers_index (region object index : Z) (m : mapping) :
  0 <= region -> region + sizeof_region <= wordsize ->
  0 <= index < 20 ->
  value (load64 (slab_cache (swizzle region (Z.land (u64 object) PAGE_MASK))) m)
  = Some (u64 (unswizzle region (region_caches_cache region index))) ->
  object_cache region object m = Ok index m.
Proof.
  intros Hregion Hend Hindex Hload.
  unfold sizeof_region, sizeof_cache, wordsize in Hend.
  assert (Eun : unswizzle region (region_caches_cache region index)
                = 64 + 88 * index).
  { unfold region_caches_cache, sizeof_cache.
    rewrite unswizzle_exact; unfold wordsize; lia. }
  rewrite Eun in Hload.
  unfold object_cache. step Hload.
  rewrite (u64_small (64 + 88 * index)) by (unfold wordsize; lia).
  rewrite swizzle_exact by (unfold wordsize; lia).
  unfold region_caches_cache, sizeof_cache.
  rewrite (u64_small (region + 64 + 88 * 0)) by (unfold wordsize; lia).
  replace (region + (64 + 88 * index) - (region + 64 + 88 * 0))
    with (index * 88) by lia.
  rewrite u64_small by (unfold wordsize; lia).
  rewrite Z.div_mul by lia.
  unfold ret. f_equal.
  rewrite <- (u64_small index) at 1 by (unfold wordsize; lia).
  apply s64_u64. lia.
Qed.

Lemma object_cache_recovers_index_witness :
  object_cache R0 4192 (after_alloc 32) = Ok 2 (after_alloc 32).
Proof.
  apply (object_cache_recovers_index R0 4192 2 (after_alloc 32)).
  - discriminate.
  - discriminate.
  - split; [discriminate | reflexivity].
  - vm_compute. reflexivity.
Defined.

(** ** What a returning access tells about the mapping *)

Lemma store8_inv (p v : Z) (m m' : mapping) (u : unit) :
  store8 p v m = Ok u m' -> m' = poke m p v /\ covers m p 1.
Proof.
  unfold store8, in_bounds, covers.
  destruct (Z.leb_spec (base m) p) as [Hlo | Hlo],
           (Z.ltb_spec p (base m + msize m)) as [Hhi | Hhi];
    simpl; intros Hrun; inversion Hrun.
  split; [reflexivity | lia].
Qed.

Lemma store_le_inv (n : nat) (p v : Z) (m m' : mapping) (u : unit) :
  store_le n p v m = Ok u m' ->
  m' = poke_le n m p v /\ covers m p (Z.of_nat n) \/ n = O /\ m' = m.
Proof.
  revert p v m. induction n as [| n IH]; intros p v m H.
  - right. inversion H. split; reflexivity.
  - left. cbn [store_le] in H.
    apply bind_inv in H as (u1 & m1 & H1 & H2).
    apply store8_inv in H1 as [-> Hc].
    apply IH in H2 as [[-> Hc2] | [-> ->]].
    + split; [reflexivity |]. apply covers_poke in Hc2.
      unfold covers in *. lia.
    + split; [reflexivity |]. unfold covers in *. simpl. lia.
Qed.

Lemma store64_inv (p v : Z) (m m' : mapping) (u : unit) :
  store64 p v m = Ok u m' -> m' = poke_le 8 m p v /\ covers m p 8.
Proof.
  intros H. apply store_le_inv in H as [H | [H _]]; [exact H | discriminate].
Qed.

Lemma load8_covers (p : Z) (m : mapping) (b : Z) :
  value (load8 p m) = Some b -> covers m p 1.
Proof.
  unfold load8, in_bounds, covers.
  destruct (Z.leb_spec (base m) p) as [Hlo | Hlo],
           (Z.ltb_spec p (base m + msize m)) as [Hhi | Hhi];
    simpl; intros Hrun; try discriminate. lia.
Qed.

Lemma load_le_covers (n : nat) (p : Z) (m : mapping) (v : Z) :
  value (load_le n p m) = Some v -> covers m p (Z.of_nat n) \/ n = O.
Proof.
  revert p v. induction n as [| n IH]; intros p v H; [right; reflexivity |].
  left. cbn [load_le] in H. unfold bind at 1 in H.
  destruct (load8 p m) as [b m1| | |] eqn:E1; try discriminate.
  assert (Hc1 : covers m p 1).
  { apply (load8_covers p m b). rewrite E1. reflexivity. }
  pose proof (readonly_load8 p m m1 b E1) as ->.
  unfold bind at 1 in H.
  destruct (load_le n (p + 1) m) as [r m2| | |] eqn:E2; try discriminate.
  assert (Hc2 : covers m (p + 1) (Z.of_nat n) \/ n = O).
  { apply (IH (p + 1) r). rewrite E2. reflexivity. }
  unfold covers in *. destruct Hc2 as [Hc2 | ->]; simpl; lia.
Qed.

Lemma load64_covers (p : Z) (m : mapping) (v : Z) :
  value (load64 p m) = Some v -> covers m p 8.
Proof.
  intros H. apply load_le_covers in H as [H | H]; [exact H | discriminate].
Qed.

Lemma load64_word_at (p : Z) (m : mapping) (v : Z) :
  value (load64 p m) = Some v -> word_at m p = v.
Proof.
  intros H. pose proof (load64_covers p m v H) as Hc.
  unfold load64 in H. rewrite (load_le_run 8 m p Hc) in H.
  inversion H. reflexivity.
Qed.

Lemma same_outside_refl (p n : Z) (m : mapping) : same_outside p n m m.
Proof. split; [reflexivity |]. split; [reflexivity |]. reflexivity. Qed.

Lemma same_outside_poke_le (n : nat) (m : mapping) (p v : Z) :
  same_outside p (Z.of_nat n) m (poke_le n m p v).
Proof.
  split; [apply base_poke_le |]. split; [apply msize_poke_le |].
  intros q Hq. rewrite byte_at_poke_le.
  destruct (Z.leb_spec p q), (Z.ltb_spec q (p + Z.of_nat n));
    simpl; try reflexivity; lia.
Qed.

(** ** allocate_page *)

Lemma readonly_allocate_page_scan (ndebug : bool) (n : nat)
    (heap_bits cache_bits last_block bits block : Z) :
  readonly (allocate_page_scan ndebug n heap_bits cache_bits last_block
              bits block).
Proof.
  revert bits block. induction n as [| n IH]; intros bits block; simpl.
  - destruct ((bits =? wordsize - 1) && (block <=? last_block));
      [intros m m' a H; discriminate | apply readonly_ret].
  - destruct ((bits =? wordsize - 1) && (block <=? last_block));
      [| apply readonly_ret].
    apply readonly_bind; [readonly |]. intros _.
    apply readonly_bind; [readonly |]. intros h.
    apply readonly_bind; [readonly |]. intros c.
    apply IH.
Qed.

(** peel a read-only head off a run that returned *)
Ltac peel H a :=
  let m1 := fresh "m" in
  let Hc := fresh "Hc" in
  apply bind_inv in H as (a & m1 & Hc & H);
  match type of Hc with
  | ?c ?m0 = Ok _ _ =>
      let Hro := fresh "Hro" in
      assert (Hro : readonly c)
        by first [apply readonly_allocate_page_scan | readonly];
      pose proof (Hro _ _ _ Hc); subst m1; clear Hro
  end.

Lemma allocate_page_inv (ndebug : bool) (fuel : nat) (region : Z)
    (m m' : mapping) (page : Z) :
  allocate_page ndebug fuel region m = Ok page m' ->
  value (load64 (region_free_page region) m) = Some page
  /\ same_outside (region_free_page region) 8 m m'.
Proof.
  intros H. unfold allocate_page in H.
  peel H page0. rewrite Hc. simpl value.
  destruct (page0 =? 0) eqn:E0.
  { inversion H. subst. apply Z.eqb_eq in E0. subst page0.
    split; [reflexivity | apply same_outside_refl]. }
  peel H u1. peel H u2. peel H heap_size. peel H hb. peel H cb.
  peel H u3. peel H h. peel H c. peel H r.
  destruct r as [bits block].
  apply bind_inv in H as (u4 & m1 & Hst & H).
  inversion H. subst page m'. split; [reflexivity |].
  destruct (negb _) in Hst;
    apply store64_inv in Hst as [-> _];
    apply (same_outside_poke_le 8).
Qed.


(** X8: when [allocate_page] returns, the value is the hint [free_page]
    it found on entry, and no byte of the mapping outside the 8 bytes of
    [free_page] has changed. *)
Theorem allocate_page_returns_hint (ndebug : bool) (fuel : nat) (region : Z)
    (m m' : mapping) (page : Z) :
  allocate_page ndebug fuel region m = Ok page m' ->
  value (load64 (region_free_page region) m) = Some page
  /\ same_outside (region_free_page region) 8 m m'.
Proof. apply allocate_page_inv. Qed.

Lemma allocate_page_returns_hint_witness :
  value (load64 (region_free_page R0) initialized) = Some 4096
  /\ same_outside (region_free_page R0) 8 initialized
       (final (allocate_page false fuel0 R0 initialized) fresh).
Proof.
  apply (allocate_page_returns_hint false fuel0 R0 initialized _ 4096).
  apply value_final. vm_compute. reflexivity.
Defined.

Lemma lxor_63_table :
  forallb (fun n => Z.land (Z.lxor (Z.of_nat n) 63) 63 =? 63 - Z.of_nat n)
          (seq 0 64) = true.
Proof. vm_compute. reflexivity. Qed.

Lemma land_lxor_63 (x : Z) :
  0 <= x < 64 -> Z.land (Z.lxor x 63) 63 = 63 - x.
Proof.
  intros Hx. pose proof lxor_63_table as T.
  rewrite forallb_forall in T.
  specialize (T (Z.to_nat x) ltac:(apply in_seq; lia)).
  rewrite Z2Nat.id in T by lia. apply Z.eqb_eq. exact T.
Qed.

Lemma odd_lor (a b : Z) : Z.odd (Z.lor a b) = Z.odd a || Z.odd b.
Proof. rewrite <- !Z.bit0_odd. apply Z.lor_spec. Qed.

Lemma odd_bit (k : Z) : 1 <= k -> Z.odd (Z.shiftl 1 k) = false.
Proof.
  intros Hk. rewrite <- Z.bit0_odd, Z.shiftl_1_l.
  apply Z.pow2_bits_false. lia.
Qed.

Lemma odd_u64 (x : Z) : Z.odd (u64 x) = Z.odd x.
Proof.
  rewrite <- !Z.bit0_odd. unfold u64, wordsize.
  apply Z.mod_pow2_bits_low. lia.
Qed.

Lemma ctzll_odd (x : Z) : 0 < x -> Z.odd x = true -> ctzll x = 0.
Proof.
  destruct x as [| p | p]; try lia.
  destruct p; simpl; intros _ H; try reflexivity. discriminate.
Qed.

Lemma ctzll_not64_even (bits : Z) :
  Z.odd bits = false -> ctzll (not64 bits) = 0.
Proof.
  intros H. pose proof (u64_range bits) as Hr.
  assert (Ho : Z.odd (not64 bits) = true).
  { unfold not64. rewrite Z.odd_sub, odd_u64, H. reflexivity. }
  apply ctzll_odd; [| exact Ho].
  unfold not64 in *. destruct (Z.eq_dec (wordsize - 1 - u64 bits) 0) as [E | E].
  - rewrite E in Ho. discriminate.
  - lia.
Qed.

Lemma land_block_mask (x : Z) :
  0 <= x < 64 -> Z.land x (u64 (-64)) = 0.
Proof.
  intros Hx.
  change (u64 (-64)) with (wordsize - 2 ^ 6).
  rewrite land_clear_low by (unfold wordsize; lia).
  rewrite Z.div_small by lia. reflexivity.
Qed.

(** X9: on a region whose bitmaps fit one 64-bit word (recorded size below
    63), with page 7 marked in neither bitmap (both first words even),
    [allocate_page] returns the hinted page and sets the hint to
    [PAGE_SIZE], the offset of page 1, whatever page the hint was on and
    whether or not page 1 is marked. *)
Theorem allocate_page_hint_back_to_page_1 (ndebug : bool) (fuel : nat)
    (region : Z) (m : mapping) (bit bsize hb cb h c : Z) :
  value (load64 (region_free_page region) m) = Some (PAGE_SIZE * bit) ->
  1 <= bit <= 62 ->
  value (load64 (region_heap_bitset_size region) m) = Some bsize ->
  value (load64 (region_caches_bitset_size region) m) = Some bsize ->
  0 <= bsize < 63 ->
  value (load64 (region_heap_bitset_bits region) m) = Some hb ->
  value (load64 (region_caches_bitset_bits region) m) = Some cb ->
  value (load64 (swizzle region hb) m) = Some h ->
  value (load64 (swizzle region cb) m) = Some c ->
  Z.land h c = 0 -> Z.even h = true -> Z.even c = true ->
  exists m',
    allocate_page ndebug fuel region m = Ok (PAGE_SIZE * bit) m'
    /\ value (load64 (region_free_page region) m') = Some PAGE_SIZE.
Proof.
  intros Hpage Hbit Hhs Hcs Hbsize Hhb Hcb Hh Hc Hhc Heh Hec.
  pose proof (load64_covers _ _ _ Hpage) as Hcov.
  exists (poke_le 8 m (region_free_page region) PAGE_SIZE).
  split.
  2:{ unfold load64.
      rewrite load_le_run
        by (unfold covers; rewrite base_poke_le, msize_poke_le; exact Hcov).
      rewrite peek_poke_same. reflexivity. }
  unfold allocate_page. step Hpage.
  destruct (Z.eqb_spec (PAGE_SIZE * bit) 0) as [E | _];
    [unfold PAGE_SIZE in E; lia |].
  assert (Ediv : PAGE_SIZE * bit / PAGE_SIZE = bit).
  { rewrite Z.mul_comm. apply Z.div_mul. discriminate. }
  rewrite (bind_Ok _ _ m m tt).
  2:{ apply assert_passes; [apply readonly_ret |]. simpl.
      rewrite land_PAGE_MASK by (unfold PAGE_SIZE, wordsize; lia).
      rewrite Ediv, Z.eqb_refl. reflexivity. }
  rewrite (bind_Ok _ _ m m tt).
  2:{ apply assert_passes; [readonly |].
      step Hhs. step Hcs. simpl. rewrite Z.eqb_refl. reflexivity. }
  step Hhs. step Hhb. step Hcb.
  rewrite Ediv.
  rewrite (u64_small (bit + 1)) by (unfold wordsize; lia).
  rewrite (land_block_mask (bit + 1)) by lia.
  rewrite (land_block_mask bsize) by lia.
  rewrite !Z.mul_0_r, !Z.add_0_r.
  rewrite (bind_Ok _ _ m m tt).
  2:{ apply assert_passes; [readonly |].
      step Hh. step Hc. simpl. rewrite Hhc. reflexivity. }
  step Hh. step Hc.
  destruct (Z.gtb_spec bit 0) as [_ | ?]; [| lia].
  rewrite land_lxor_63 by lia.
  change (u64 (0 + 1)) with 1.
  set (bits := Z.lor (Z.shiftl 1 (63 - bit)) (Z.lor h c)).
  assert (Hodd : Z.odd bits = false).
  { unfold bits. rewrite !odd_lor, odd_bit by lia.
    rewrite <- !Z.negb_even, Heh, Hec. reflexivity. }
  assert (Hscan : allocate_page_scan ndebug fuel (swizzle region hb)
                    (swizzle region cb) 0 bits 1 m = Ok (bits, 1) m).
  { destruct fuel; simpl; rewrite andb_false_r; reflexivity. }
  rewrite (bind_Ok _ _ m m _ Hscan). cbv beta iota.
  rewrite Z.eqb_refl. rewrite land_lxor_63 by lia.
  set (bits' := Z.lor bits (Z.shiftl 1 (63 - bsize))).
  assert (Hodd' : Z.odd bits' = false).
  { unfold bits'. rewrite odd_lor, Hodd, odd_bit by lia. reflexivity. }
  destruct (Z.eqb_spec bits' (wordsize - 1)) as [E | _].
  { rewrite E in Hodd'. discriminate. }
  change (negb false) with true. cbv iota.
  rewrite ctzll_not64_even by exact Hodd'.
  change (u64 (u64 (1 + 0) * PAGE_SIZE)) with PAGE_SIZE.
  rewrite (bind_Ok _ _ m _ tt (store_le_run 8 m _ _ Hcov)).
  reflexivity.
Qed.

Lemma allocate_page_hint_back_to_page_1_witness :
  exists m',
    allocate_page false fuel0 R0 (after_alloc 8) = Ok (PAGE_SIZE * 1) m'
    /\ value (load64 (region_free_page R0) m') = Some PAGE_SIZE.
Proof.
  apply (allocate_page_hint_back_to_page_1 false fuel0 R0 (after_alloc 8)
           1 24 4048 4072 0 64);
    try (vm_compute; reflexivity).
  - split; discriminate.
  - split; [discriminate | reflexivity].
Defined.

(** ** region_alloc when nothing is left *)

Lemma alloc_size_index_bound :
  forallb (fun index => (0 <=? index) && (index <? 6)) alloc_size_index = true.
Proof. reflexivity. Qed.

Lemma small_object_cache_run (ndebug : bool) (size : Z) (m : mapping) :
  1 <= size <= 256 ->
  exists index,
    small_object_cache ndebug size m = Ok index m
    /\ alloc_size_index !! Z.to_nat ((size - 1) / 8) = Some index
    /\ 0 <= index < 6.
Proof.
  intros Hsize. unfold small_object_cache.
  rewrite (bind_Ok _ _ m m tt).
  2:{ apply assert_passes; [apply readonly_ret |]. simpl.
      destruct (Z.leb_spec size 256); [reflexivity | lia]. }
  rewrite u64_small by (unfold wordsize; lia).
  rewrite Z.shiftr_div_pow2 by lia. change (2 ^ 3) with 8.
  destruct (alloc_size_index !! Z.to_nat ((size - 1) / 8)) as [index |] eqn:E.
  - exists index. split; [reflexivity |]. split; [reflexivity |].
    pose proof alloc_size_index_bound as T. rewrite forallb_forall in T.
    apply list_elem_of_lookup_2, list_elem_of_In in E.
    specialize (T index E). apply andb_prop in T as [T1 T2].
    apply Z.leb_le in T1. apply Z.ltb_lt in T2. lia.
  - exfalso. apply lookup_ge_None in E.
    assert (Z.to_nat ((size - 1) / 8) < 32)%nat.
    { apply Nat2Z.inj_lt. rewrite Z2Nat.id by (apply Z.div_pos; lia).
      apply Z.div_lt_upper_bound; lia. }
    change (List.length alloc_size_index) with 32%nat in E. lia.
Qed.

(** X10: [region_alloc] returns 0 and leaves the mapping as it was when the
    size is 0, and when, for a size from 1 to 256, the cache of that size
    class has neither a partial nor a free slab and the page hint
    [free_page] is 0. *)
Theorem region_alloc_nothing_left (ndebug : bool) (fuel : nat)
    (region size : Z) (m : mapping) :
  region <> 0 ->
  size = 0
  \/ (1 <= size <= 256
      /\ (forall index,
             alloc_size_index !! Z.to_nat ((size - 1) / 8) = Some index ->
             let cache := region_caches_cache region index in
             value (load64 (list_list (cache_partial_slabs cache)) m) = Some 0
             /\ value (load64 (list_list (cache_free_slabs cache)) m) = Some 0)
      /\ value (load64 (region_free_page region) m) = Some 0) ->
  region_alloc ndebug fuel region size m = Ok 0 m.
Proof.
  intros Hregion H. unfold region_alloc.
  rewrite (bind_Ok _ _ m m tt (assert_region ndebug region m Hregion)).
  destruct H as [-> | (Hsize & Hcache & Hpage)]; [reflexivity |].
  unfold is_small_object_size.
  destruct (Z.leb_spec size 256) as [_ | ?]; [| lia].
  destruct (Z.eqb_spec size 0) as [? | _]; [lia |].
  destruct (small_object_cache_run ndebug size m Hsize)
    as (index & Hrun & Hidx & Hrange).
  rewrite (bind_Ok _ _ m m index Hrun).
  destruct (Hcache index Hidx) as [Hpl Hfl].
  set (cache := region_caches_cache region index) in *.
  assert (Hslab : allocate_slab ndebug fuel region cache m = Ok 0 m).
  { unfold allocate_slab.
    rewrite (bind_Ok _ _ m m 0); [reflexivity |].
    unfold allocate_page. step Hpage. reflexivity. }
  unfold cache_alloc. fold cache.
  rewrite (bind_Ok _ _ m m tt (assert_region ndebug region m Hregion)).
  rewrite (bind_Ok _ _ m m tt).
  2:{ apply assert_passes; [apply readonly_ret |]. simpl.
      unfold sizeof_caches_count.
      destruct (Z.ltb_spec index 8); [reflexivity | lia]. }
  step Hpl.
  rewrite (bind_Ok _ _ m m None); [reflexivity |].
  change (negb (0 =? 0)) with false. cbv iota.
  step Hfl. change (0 =? 0) with true. cbv iota.
  rewrite (bind_Ok _ _ m m false); [reflexivity |].
  rewrite (bind_Ok _ _ m m 0 Hslab). reflexivity.
Qed.

Lemma region_alloc_nothing_left_witness :
  region_alloc false fuel0 R0 0 initialized = Ok 0 initialized
  /\ region_alloc false fuel0 R0 8 exhausted = Ok 0 exhausted.
Proof.
  split.
  - apply (region_alloc_nothing_left false fuel0 R0 0 initialized).
    + discriminate.
    + left. reflexivity.
  - apply (region_alloc_nothing_left false fuel0 R0 8 exhausted).
    + discriminate.
    + right. split; [split; discriminate |]. split.
      * intros index Hidx. vm_compute in Hidx. inversion Hidx. subst index.
        split; vm_compute; reflexivity.
      * vm_compute. reflexivity.
Defined.

(** ** region_free reaching cache_free *)

Lemma region_free_dispatch (ndebug : bool) (fuel : nat) (region object : Z)
    (m : mapping) (pages size index : Z) :
  region <> 0 ->
  value (load64 (region_pages region) m) = Some pages ->
  value (load64 (region_size region) m) = Some size ->
  pages < u64 object < size ->
  Z.land object 7 = 0 ->
  value (is_cache_object region object m) = Some true ->
  value (object_cache region object m) = Some index ->
  region_free ndebug fuel region object m
  = cache_free ndebug fuel region (u64 index) object m.
Proof.
  intros Hregion Hpages Hsize [Hlo Hhi] Hal Hco Hoc.
  unfold region_free.
  rewrite (bind_Ok _ _ m m tt (assert_region ndebug region m Hregion)).
  step Hpages.
  destruct (Z.leb_spec (u64 object) pages) as [| _]; [lia |].
  step Hsize.
  destruct (Z.geb_spec (u64 object) size) as [| _]; [lia |].
  rewrite Hal. change (negb (0 =? 0)) with false. cbv iota.
  rewrite (bind_Ok _ _ m m true
             (readonly_value _ _ _ (readonly_is_cache_object _ _) Hco)).
  rewrite (bind_Ok _ _ m m index
             (readonly_value _ _ _ (readonly_object_cache _ _) Hoc)).
  reflexivity.
Qed.

(** X11: freeing again the offset that is at the head of its slab's free
    list (a double free): the build with assertions stops on
    [assert(free_object != object)], the build with NDEBUG never returns
    from the scan. *)
Theorem region_free_double_free (fuel : nat) (region object : Z) (m : mapping)
    (pages size index owner word : Z) :
  let slab := swizzle region (Z.land (u64 object) PAGE_MASK) in
  region <> 0 ->
  value (load64 (region_pages region) m) = Some pages ->
  value (load64 (region_size region) m) = Some size ->
  0 <= pages < u64 object -> u64 object < size ->
  Z.land object 7 = 0 ->
  value (is_cache_object region object m) = Some true ->
  value (object_cache region object m) = Some index ->
  u64 index < sizeof_caches_count ->
  value (load64 (slab_cache slab) m) = Some owner ->
  swizzle region owner = u64 (region_caches_cache region (u64 index)) ->
  value (load64 (list_list (slab_free_objects slab)) m) = Some (u64 object) ->
  value (load64 (swizzle region (u64 object)) m) = Some word ->
  region_free false (S fuel) region object m = AssertFail
  /\ region_free true fuel region object m = OutOfFuel.
Proof.
  intros slab Hregion Hpages Hsize Hlo Hhi Hal Hco Hoc Hidx Hown Hsw
         Hhead Hword.
  assert (Hnz : (u64 object =? 0) = false) by (apply Z.eqb_neq; lia).
  split.
  - rewrite (region_free_dispatch false (S fuel) region object m pages size
               index) by (assumption || lia).
    unfold cache_free. fold slab.
    rewrite (bind_Ok _ _ m m tt (assert_region false region m Hregion)).
    rewrite (bind_Ok _ _ m m tt).
    2:{ apply assert_passes; [apply readonly_ret |]. simpl.
        apply Z.ltb_lt in Hidx. rewrite Hidx. reflexivity. }
    rewrite (bind_Ok _ _ m m tt).
    2:{ apply assert_passes; [readonly |].
        rewrite (bind_Ok _ _ m m owner
                   (readonly_value _ _ _ (readonly_load64 _) Hown)).
        simpl. rewrite Hsw, Z.eqb_refl. reflexivity. }
    step Hhead.
    unfold bind at 1. cbn [cache_free_scan]. rewrite Hnz.
    change (negb false) with true. cbv iota.
    unfold bind at 1. unfold assert at 1. cbv iota.
    unfold bind at 1. unfold ret at 1. rewrite Z.eqb_refl.
    reflexivity.
  - rewrite (region_free_dispatch true fuel region object m pages size
               index) by (assumption || lia).
    unfold cache_free. fold slab.
    rewrite (bind_Ok _ _ m m tt (assert_region true region m Hregion)).
    rewrite (bind_Ok _ _ m m tt eq_refl).
    rewrite (bind_Ok _ _ m m tt eq_refl).
    step Hhead.
    apply bind_OutOfFuel.
    induction fuel as [| n IH]; cbn [cache_free_scan]; rewrite Hnz;
      change (negb false) with true; cbv iota; [reflexivity |].
    rewrite (bind_Ok _ _ m m tt eq_refl).
    rewrite (bind_Ok _ _ m m tt eq_refl).
    step Hword. exact IH.
Qed.

Lemma region_free_double_free_witness :
  region_free false (S fuel0) R0 4160 after_alloc_free = AssertFail
  /\ region_free true fuel0 R0 4160 after_alloc_free = OutOfFuel.
Proof.
  apply (region_free_double_free fuel0 R0 4160 after_alloc_free
           4096 81920 0 64 0);
    try (vm_compute; reflexivity); try discriminate.
  split; [discriminate | reflexivity].
Defined.

(** ** Running loads and stores on a mapping that covers them *)

Lemma load64_run (m : mapping) (p : Z) :
  covers m p 8 -> load64 p m = Ok (word_at m p) m.
Proof. apply (load_le_run 8). Qed.

Lemma store64_run (m : mapping) (p v : Z) :
  covers m p 8 -> store64 p v m = Ok tt (poke_le 8 m p v).
Proof. apply (store_le_run 8). Qed.

Lemma store16_run (m : mapping) (p v : Z) :
  covers m p 2 -> store16 p v m = Ok tt (poke_le 2 m p v).
Proof. apply (store_le_run 2). Qed.

Lemma word_at_poke_same (m : mapping) (p v : Z) :
  word_at (poke_le 8 m p v) p = u64 v.
Proof. apply (peek_poke_same 8). Qed.

Lemma word_at_poke_other (n : nat) (m : mapping) (p v q : Z) :
  q + 8 <= p \/ p + Z.of_nat n <= q ->
  word_at (poke_le n m p v) q = word_at m q.
Proof. apply (peek_poke_other 8 n). Qed.

Lemma word_at_fill_other (n : nat) (m : mapping) (p v q : Z) :
  q + 8 <= p \/ p + Z.of_nat n <= q ->
  word_at (fill n m p v) q = word_at m q.
Proof. apply (peek_fill_other 8 n). Qed.

Lemma word_at_fill_zero (n : nat) (m : mapping) (p q : Z) :
  p <= q -> q + 8 <= p + Z.of_nat n -> word_at (fill n m p 0) q = 0.
Proof. apply (peek_fill_zero 8 n). Qed.

Lemma word_at_poke_list_other (src : list Z) (m : mapping) (p q : Z) :
  q + 8 <= p \/ p + Z.of_nat (List.length src) <= q ->
  word_at (poke_list src m p) q = word_at m q.
Proof. apply (peek_poke_list_other 8). Qed.

Lemma word_at_ext (m m' : mapping) (p : Z) :
  (forall q, p <= q < p + 8 -> byte_at m' q = byte_at m q) ->
  word_at m' p = word_at m p.
Proof. apply (peek_le_ext 8). Qed.

Lemma aligned_size_bounds (size align : Z) :
  0 <= size -> 0 <= align -> size + align + 8 <= wordsize ->
  0 < aligned_size size align < wordsize.
Proof.
  intros Hs Ha Hw. unfold aligned_size, u64.
  set (a := if align =? 0 then 8 else align).
  assert (Hapos : 0 < a).
  { unfold a. destruct (Z.eqb_spec align 0); lia. }
  assert (Hale : a = 8 \/ a = align).
  { unfold a. destruct (Z.eqb_spec align 0); lia. }
  unfold wordsize in *.
  destruct (Z.gtb_spec a size) as [Hgt | Hle]; [lia |].
  rewrite (Z.mod_small (size + (a - 1))) by lia.
  pose proof (Z.div_mod (size + (a - 1)) a ltac:(lia)) as Hdm.
  pose proof (Z.mod_pos_bound (size + (a - 1)) a Hapos) as Hmb.
  set (q := (size + (a - 1)) / a) in *.
  assert (Hq : 1 <= q) by nia.
  rewrite Z.mod_small by nia. nia.
Qed.

(** ** cache_init *)

Ltac fields :=
  unfold region_size, region_pages, region_free_page,
    region_heap_bitset_bits, region_heap_bitset_size,
    region_caches_bitset_bits, region_caches_bitset_size,
    region_caches_count, region_caches_cache,
    cache_name, cache_full_slabs, cache_partial_slabs, cache_free_slabs,
    cache_object_size, cache_alignment, cache_aligned_size,
    cache_object_count, list_list, list_count,
    slab_cache, slab_list, slab_next, slab_objects, slab_free_objects,
    sizeof_region, sizeof_cache, sizeof_cache_name, sizeof_slab,
    PAGE_SIZE in *.

Create Rewrite HintDb shape.
#[local] Hint Rewrite base_poke_le msize_poke_le base_fill msize_fill
  base_poke_list msize_poke_list : shape.

Ltac bounds :=
  unfold covers in *; autorewrite with shape in *; fields; lia.

(** run the load or store at the head of the program *)
Ltac run1 :=
  lazymatch goal with
  | |- bind (load64 ?p) ?k ?m = _ =>
      rewrite (bind_Ok (load64 p) k m m _ (load64_run m p ltac:(bounds)))
  | |- bind (store64 ?p ?v) ?k ?m = _ =>
      rewrite (bind_Ok (store64 p v) k m _ tt
                 (store64_run m p v ltac:(bounds)))
  | |- bind (store16 ?p ?v) ?k ?m = _ =>
      rewrite (bind_Ok (store16 p v) k m _ tt
                 (store16_run m p v ltac:(bounds)))
  | |- bind (memcpy_const ?p ?src) ?k ?m = _ =>
      rewrite (bind_Ok (memcpy_const p src) k m _ tt
                 (memcpy_const_run src m p ltac:(bounds)))
  | |- bind (memset ?p ?v ?n) ?k ?m = _ =>
      rewrite (bind_Ok (memset p v n) k m _ tt
                 (memset_run n m p v ltac:(bounds)))
  end; cbv beta.

Ltac words :=
  repeat first
    [ rewrite word_at_poke_same
    | rewrite word_at_poke_other by bounds
    | rewrite word_at_fill_zero by bounds
    | rewrite word_at_fill_other by bounds
    | rewrite word_at_poke_list_other by bounds ].

Lemma u64_u64 (x : Z) : u64 (u64 x) = u64 x.
Proof. unfold u64. apply Zmod_mod. Qed.

Lemma name_bytes_length (name : string) :
  Z.of_nat (List.length
    (take (Z.to_nat
             (if Z.of_nat (String.length name) >=? sizeof_cache_name
              then sizeof_cache_name - 1
              else Z.of_nat (String.length name)))
          (string_bytes name))) <= 15.
Proof.
  rewrite length_take.
  destruct (Z.geb_spec (Z.of_nat (String.length name)) sizeof_cache_name);
    unfold sizeof_cache_name in *; lia.
Qed.

Lemma cache_init_run (region : Z) (name : string) (size align : Z)
    (m : mapping) (id : Z) :
  covers m region sizeof_region ->
  word_at m (region_caches_count region) = id -> 0 <= id < 20 ->
  0 <= size < 2 ^ 16 -> 0 <= align < 2 ^ 16 ->
  exists m',
    cache_init region name size align m = Ok id m'
    /\ base m' = base m /\ msize m' = msize m
    /\ word_at m' (region_caches_count region) = id + 1
    /\ cache_ready m' (region_caches_cache region id)
         (AllocCache name size align)
    /\ forall q,
         q < region_caches_count region
         \/ region_caches_count region + 8 <= q ->
         q < region_caches_cache region id
         \/ region_caches_cache region id + sizeof_cache <= q ->
         byte_at m' q = byte_at m q.
Proof.
  intros Hcov Hid Hrange Hsize Halign.
  pose proof (aligned_size_bounds size align ltac:(lia) ltac:(lia)
                ltac:(unfold wordsize; lia)) as Hasz.
  pose proof (name_bytes_length name) as Hn.
  assert (Hcount : 0 <= (PAGE_SIZE - sizeof_slab) / aligned_size size align
                   < wordsize).
  { split; [apply Z.div_pos; [unfold PAGE_SIZE, sizeof_slab |]; lia |].
    apply Z.div_lt_upper_bound; [lia |].
    unfold PAGE_SIZE, sizeof_slab, wordsize in *. nia. }
  eexists. split.
  - unfold cache_init.
    remember (take (Z.to_nat
                      (if Z.of_nat (String.length name) >=? sizeof_cache_name
                       then sizeof_cache_name - 1
                       else Z.of_nat (String.length name)))
                (string_bytes name)) as nbytes eqn:Enbytes.
    run1. rewrite Hid.
    run1. run1. run1. run1. run1. run1. run1.
    words. rewrite (u64_small (aligned_size size align)) by lia.
    destruct (Z.eqb_spec (aligned_size size align) 0) as [E | _]; [lia |].
    run1. subst nbytes. reflexivity.
  - remember (take (Z.to_nat
                      (if Z.of_nat (String.length name) >=? sizeof_cache_name
                       then sizeof_cache_name - 1
                       else Z.of_nat (String.length name)))
                (string_bytes name)) as nbytes eqn:Enbytes.
    clear Enbytes.
    split; [autorewrite with shape; reflexivity |].
    split; [autorewrite with shape; reflexivity |].
    split.
    { words. rewrite u64_u64. apply u64_small. unfold wordsize. lia. }
    split.
    { unfold cache_ready. cbn [ac_size ac_align].
      repeat split.
      - words. apply u64_small. lia.
      - words. apply u64_small. exact Hcount.
      - rewrite !peek_poke_other by bounds. rewrite peek_poke_same.
        apply Z.mod_small. change (Z.of_nat 2) with 2. lia.
      - rewrite !peek_poke_other by bounds. rewrite peek_poke_same.
        apply Z.mod_small. change (Z.of_nat 2) with 2. lia.
      - words. reflexivity.
      - words. reflexivity.
      - words. reflexivity.
      - words. reflexivity.
      - words. reflexivity.
      - words. reflexivity. }
    intros q Hq1 Hq2.
    rewrite !byte_at_poke_le, byte_at_poke_list_other, byte_at_fill,
      byte_at_poke_le by bounds.
    repeat match goal with
           | |- context [(?a <=? ?b) && (?c <? ?d)] =>
               destruct (Z.leb_spec a b), (Z.ltb_spec c d); simpl;
                 try reflexivity; try bounds
           end.
Qed.

(** ** region_init *)

Lemma bind_bind {A B C} (c : M A) (k1 : A -> M B) (k2 : B -> M C)
    (m : mapping) :
  bind (bind c k1) k2 m = bind c (fun x => bind (k1 x) k2) m.
Proof. unfold bind. destruct (c m); reflexivity. Qed.

Lemma cache_ready_ext (m m' : mapping) (cache : Z) (ac : alloc_cache) :
  (forall q, cache <= q < cache + sizeof_cache ->
             byte_at m' q = byte_at m q) ->
  cache_ready m cache ac -> cache_ready m' cache ac.
Proof.
  intros Hsame H. unfold cache_ready, word_at in *.
  rewrite !(peek_le_ext _ m m') by (intros q Hq; apply Hsame; bounds).
  exact H.
Qed.

Lemma region_init_caches_run (region : Z) (l : list alloc_cache) :
  forall (m : mapping) (k : Z),
    covers m region sizeof_region ->
    word_at m (region_caches_count region) = k ->
    0 <= k -> k + Z.of_nat (List.length l) <= 20 ->
    Forall (fun ac => 0 <= ac_size ac < 2 ^ 16 /\ 0 <= ac_align ac < 2 ^ 16)
           l ->
    exists m',
      region_init_caches region l m = Ok tt m'
      /\ base m' = base m /\ msize m' = msize m
      /\ word_at m' (region_caches_count region) = k + Z.of_nat (List.length l)
      /\ (forall (j : nat) (ac : alloc_cache),
             l !! j = Some ac ->
             cache_ready m' (region_caches_cache region (k + Z.of_nat j)) ac)
      /\ forall q,
           q < region_caches_count region
           \/ region_caches_count region + 8 <= q ->
           q < region_caches_cache region k
           \/ region_caches_cache region (k + Z.of_nat (List.length l)) <= q ->
           byte_at m' q = byte_at m q.
Proof.
  induction l as [| ac rest IH]; intros m k Hcov Hk Hk0 Hlen Hall.
  - exists m. cbn [region_init_caches List.length].
    split; [reflexivity |]. split; [reflexivity |]. split; [reflexivity |].
    split; [lia |]. split; [intros j ac Hj; discriminate |].
    reflexivity.
  - cbn [List.length] in *. rewrite Nat2Z.inj_succ in *.
    apply Forall_cons in Hall as [Hac Hrest].
    destruct ac as [name size align]. cbn [ac_size ac_align ac_name] in *.
    destruct (cache_init_run region name size align m k Hcov Hk
                ltac:(lia) ltac:(lia) ltac:(lia))
      as (m1 & Hrun1 & Hb1 & Hs1 & Hc1 & Hready1 & Hframe1).
    assert (Hcov1 : covers m1 region sizeof_region).
    { unfold covers in *. rewrite Hb1, Hs1. exact Hcov. }
    destruct (IH m1 (k + 1) Hcov1 Hc1 ltac:(lia) ltac:(lia) Hrest)
      as (m2 & Hrun2 & Hb2 & Hs2 & Hc2 & Hready2 & Hframe2).
    exists m2. cbn [region_init_caches ac_name ac_size ac_align].
    rewrite (bind_Ok _ _ m m1 k Hrun1).
    split; [exact Hrun2 |].
    split; [congruence |]. split; [congruence |].
    split; [rewrite Hc2; lia |].
    split.
    + intros [| j] ac Hj.
      * cbn in Hj. inversion Hj. subst ac.
        replace (k + Z.of_nat 0) with k by lia.
        apply (cache_ready_ext m1); [| exact Hready1].
        intros q Hq. apply Hframe2; bounds.
      * cbn in Hj.
        replace (k + Z.of_nat (S j)) with (k + 1 + Z.of_nat j) by lia.
        apply Hready2. exact Hj.
    + intros q Hq1 Hq2.
      rewrite Hframe2 by bounds. apply Hframe1; bounds.
Qed.

Lemma alloc_caches_fit :
  Forall (fun ac => 0 <= ac_size ac < 2 ^ 16 /\ 0 <= ac_align ac < 2 ^ 16)
         alloc_caches.
Proof. repeat constructor; cbn; lia. Qed.

Lemma bitmap_size_eq (size : Z) :
  0 <= size < wordsize ->
  Z.land (u64 (size / PAGE_SIZE + 7)) (u64 (-8)) = bitmap_bytes size.
Proof.
  intros Hsize.
  assert (Hp : 0 <= size / PAGE_SIZE < 2 ^ 52).
  { split; [apply Z.div_pos; [lia | reflexivity] |].
    apply Z.div_lt_upper_bound; [reflexivity |].
    unfold wordsize, PAGE_SIZE in *. lia. }
  rewrite u64_small by (unfold wordsize; lia).
  change (u64 (-8)) with (wordsize - 2 ^ 3).
  rewrite land_clear_low by (unfold wordsize; lia).
  reflexivity.
Qed.

Lemma bitmap_bytes_bounds (size : Z) :
  0 <= size < wordsize ->
  size / PAGE_SIZE <= bitmap_bytes size <= size / PAGE_SIZE + 7.
Proof.
  intros Hsize. unfold bitmap_bytes.
  pose proof (Z.div_mod (size / PAGE_SIZE + 7) 8 ltac:(lia)) as Hdm.
  pose proof (Z.mod_pos_bound (size / PAGE_SIZE + 7) 8 ltac:(lia)) as Hmb.
  lia.
Qed.

(** In the tail layout the check for too few data pages cannot fail. *)
Lemma bitmap_tail_pages_small (size : Z) :
  0 <= size < wordsize ->
  unused_space <= bitmap_bytes size ->
  1 <= bitmap_tail_pages size
  /\ bitmap_tail_pages size + 6 < size / PAGE_SIZE
  /\ PAGE_SIZE * bitmap_tail_pages size < 2 * bitmap_bytes size + 2 * PAGE_SIZE.
Proof.
  intros Hsize Hbig.
  pose proof (bitmap_bytes_bounds size Hsize) as Hb.
  change unused_space with 1136 in Hbig.
  unfold bitmap_tail_pages.
  set (bm := bitmap_bytes size) in *.
  pose proof (Z.div_mod (2 * bm + (PAGE_SIZE - 1)) PAGE_SIZE
                ltac:(discriminate)) as Hdm.
  pose proof (Z.mod_pos_bound (2 * bm + (PAGE_SIZE - 1)) PAGE_SIZE
                ltac:(reflexivity)) as Hmb.
  set (bp := (2 * bm + (PAGE_SIZE - 1)) / PAGE_SIZE) in *.
  unfold PAGE_SIZE in *. lia.
Qed.

Lemma region_init_run (address size : Z) (m : mapping) :
  Z.land address PAGE_MASK = address ->
  0 <= size < wordsize -> size mod PAGE_SIZE = 0 ->
  Z.of_nat (List.length alloc_caches) < size / PAGE_SIZE ->
  covers m address sizeof_region ->
  exists m',
    region_init address size m = Ok address m'
    /\ word_at m' (region_size address) = size
    /\ word_at m' (region_pages address) = PAGE_SIZE
    /\ word_at m' (region_free_page address) = PAGE_SIZE
    /\ word_at m' (region_caches_count address)
       = Z.of_nat (List.length alloc_caches)
    /\ word_at m' (region_heap_bitset_size address) = bitmap_bytes size
    /\ word_at m' (region_caches_bitset_size address) = bitmap_bytes size
    /\ word_at m' (region_heap_bitset_bits address)
       = (if bitmap_bytes size <? unused_space
          then PAGE_SIZE - 2 * bitmap_bytes size
          else size - PAGE_SIZE * bitmap_tail_pages size)
    /\ word_at m' (region_caches_bitset_bits address)
       = (if bitmap_bytes size <? unused_space
          then PAGE_SIZE - bitmap_bytes size
          else size - PAGE_SIZE * bitmap_tail_pages size / 4)
    /\ (forall (j : nat) (ac : alloc_cache),
           alloc_caches !! j = Some ac ->
           cache_ready m' (region_caches_cache address (Z.of_nat j)) ac)
    /\ same_outside address sizeof_written_header m m'.
Proof.
  intros Haddr Hsize Hmod Hpages Hcov.
  change (Z.of_nat (List.length alloc_caches)) with 6 in *.
  assert (Hsz : size = PAGE_SIZE * (size / PAGE_SIZE)).
  { pose proof (Z.div_mod size PAGE_SIZE ltac:(discriminate)). lia. }
  pose proof (bitmap_bytes_bounds size Hsize) as Hbm.
  assert (Hp : 7 <= size / PAGE_SIZE < 2 ^ 52).
  { split; [lia |]. apply Z.div_lt_upper_bound; [reflexivity |].
    unfold wordsize, PAGE_SIZE in *. lia. }
  (* the state after the bitmap placement *)
  assert (Hplace : exists m1,
    (if Z.land (u64 (size / PAGE_SIZE + 7)) (u64 (-8))
        <? Z.shiftr (PAGE_SIZE - sizeof_region) 1 then
       store64 (region_heap_bitset_bits address)
               (u64 (PAGE_SIZE
                     - u64 (Z.shiftl (Z.land (u64 (size / PAGE_SIZE + 7))
                                             (u64 (-8))) 1))) ;;;
       store64 (region_heap_bitset_size address)
               (Z.land (u64 (size / PAGE_SIZE + 7)) (u64 (-8))) ;;;
       store64 (region_caches_bitset_bits address)
               (u64 (PAGE_SIZE
                     - Z.land (u64 (size / PAGE_SIZE + 7)) (u64 (-8)))) ;;;
       store64 (region_caches_bitset_size address)
               (Z.land (u64 (size / PAGE_SIZE + 7)) (u64 (-8))) ;;;
       ret true
     else
       if u64 (u64 (u64 (Z.shiftl (Z.land (u64 (size / PAGE_SIZE + 7))
                                          (u64 (-8))) 1)
                         + (PAGE_SIZE - 1)) / PAGE_SIZE
                 + Z.of_nat (List.length alloc_caches))
          >=? size / PAGE_SIZE
       then ret false else
       store64 (region_heap_bitset_bits address)
               (u64 (size
                     - u64 (PAGE_SIZE
                            * (u64 (u64 (Z.shiftl
                                           (Z.land (u64 (size / PAGE_SIZE + 7))
                                                   (u64 (-8))) 1)
                                         + (PAGE_SIZE - 1)) / PAGE_SIZE)))) ;;;
       store64 (region_heap_bitset_size address)
               (Z.land (u64 (size / PAGE_SIZE + 7)) (u64 (-8))) ;;;
       store64 (region_caches_bitset_bits address)
               (u64 (size
                     - Z.shiftr
                         (u64 (PAGE_SIZE
                               * (u64 (u64 (Z.shiftl
                                              (Z.land
                                                 (u64 (size / PAGE_SIZE + 7))
                                                 (u64 (-8))) 1)
                                            + (PAGE_SIZE - 1)) / PAGE_SIZE)))
                         2)) ;;;
       store64 (region_caches_bitset_size address)
               (Z.land (u64 (size / PAGE_SIZE + 7)) (u64 (-8))) ;;;
       ret true) m = Ok true m1
    /\ base m1 = base m /\ msize m1 = msize m
    /\ word_at m1 (region_heap_bitset_size address) = bitmap_bytes size
    /\ word_at m1 (region_caches_bitset_size address) = bitmap_bytes size
    /\ word_at m1 (region_heap_bitset_bits address)
       = (if bitmap_bytes size <? unused_space
          then PAGE_SIZE - 2 * bitmap_bytes size
          else size - PAGE_SIZE * bitmap_tail_pages size)
    /\ word_at m1 (region_caches_bitset_bits address)
       = (if bitmap_bytes size <? unused_space
          then PAGE_SIZE - bitmap_bytes size
          else size - PAGE_SIZE * bitmap_tail_pages size / 4)
    /\ forall q, q < address + 24 \/ address + 56 <= q ->
                 byte_at m1 q = byte_at m q).
  { rewrite bitmap_size_eq by exact Hsize.
    change (Z.shiftr (PAGE_SIZE - sizeof_region) 1) with unused_space.
    change (Z.of_nat (List.length alloc_caches)) with 6.
    rewrite Z.shiftl_mul_pow2 by lia. change (2 ^ 1) with 2.
    destruct (Z.ltb_spec (bitmap_bytes size) unused_space) as [Hfit | Hbig].
    - change unused_space with 1136 in Hfit.
      eexists. split; [run1; run1; run1; run1; reflexivity |].
      split; [autorewrite with shape; reflexivity |].
      split; [autorewrite with shape; reflexivity |].
      rewrite (u64_small (bitmap_bytes size * 2)) by (unfold wordsize, PAGE_SIZE in *; lia).
      repeat split.
      + words. apply u64_small. unfold wordsize, PAGE_SIZE in *. lia.
      + words. apply u64_small. unfold wordsize, PAGE_SIZE in *. lia.
      + words. rewrite u64_u64. rewrite u64_small; unfold wordsize, PAGE_SIZE in *; lia.
      + words. rewrite u64_u64. rewrite u64_small; unfold wordsize, PAGE_SIZE in *; lia.
      + intros q Hq. rewrite !byte_at_poke_le.
        repeat match goal with
               | |- context [(?a <=? ?b) && (?c <? ?d)] =>
                   destruct (Z.leb_spec a b), (Z.ltb_spec c d); simpl;
                     try reflexivity; try bounds
               end.
    - destruct (bitmap_tail_pages_small size Hsize Hbig) as (Hbp1 & Hbp6 & Hbpu).
      assert (Ebp : u64 (u64 (bitmap_bytes size * 2) + (PAGE_SIZE - 1))
                    / PAGE_SIZE = bitmap_tail_pages size).
      { rewrite (u64_small (bitmap_bytes size * 2))
          by (unfold wordsize, PAGE_SIZE in *; lia).
        rewrite u64_small by (unfold wordsize, PAGE_SIZE in *; lia).
        unfold bitmap_tail_pages. f_equal. lia. }
      rewrite Ebp.
      rewrite (u64_small (bitmap_tail_pages size + 6))
        by (unfold wordsize, PAGE_SIZE in *; lia).
      destruct (Z.geb_spec (bitmap_tail_pages size + 6) (size / PAGE_SIZE));
        [lia |].
      assert (Hle : 0 <= PAGE_SIZE * bitmap_tail_pages size <= size).
      { unfold PAGE_SIZE in *. lia. }
      rewrite (u64_small (PAGE_SIZE * bitmap_tail_pages size))
        by (unfold wordsize, PAGE_SIZE in *; lia).
      rewrite Z.shiftr_div_pow2 by lia. change (2 ^ 2) with 4.
      assert (Hq4 : 0 <= PAGE_SIZE * bitmap_tail_pages size / 4 <= size).
      { split; [apply Z.div_pos; lia |].
        apply Z.le_trans with (PAGE_SIZE * bitmap_tail_pages size); [| lia].
        apply Z.div_le_upper_bound; lia. }
      eexists. split; [run1; run1; run1; run1; reflexivity |].
      split; [autorewrite with shape; reflexivity |].
      split; [autorewrite with shape; reflexivity |].
      repeat split.
      + words. apply u64_small. unfold wordsize, PAGE_SIZE in *. lia.
      + words. apply u64_small. unfold wordsize, PAGE_SIZE in *. lia.
      + words. rewrite u64_u64. apply u64_small. unfold wordsize, PAGE_SIZE in *. lia.
      + words. rewrite u64_u64. apply u64_small. unfold wordsize, PAGE_SIZE in *. lia.
      + intros q Hq. rewrite !byte_at_poke_le.
        repeat match goal with
               | |- context [(?a <=? ?b) && (?c <? ?d)] =>
                   destruct (Z.leb_spec a b), (Z.ltb_spec c d); simpl;
                     try reflexivity; try bounds
               end. }
  destruct Hplace as (m1 & Hrun1 & Hb1 & Hs1 & Hhs & Hcs & Hhb & Hcb & Hframe1).
  assert (Hcov1 : covers m1 address sizeof_region).
  { unfold covers in *. rewrite Hb1, Hs1. exact Hcov. }
  set (m2 := poke_le 8 (poke_le 8 (poke_le 8 (poke_le 8 m1
               (region_size address) size)
               (region_caches_count address) 0)
               (region_free_page address) PAGE_SIZE)
               (region_pages address) PAGE_SIZE).
  destruct (region_init_caches_run address alloc_caches m2 0)
    as (m3 & Hrun3 & Hb3 & Hs3 & Hc3 & Hready & Hframe3).
  { unfold m2. bounds. }
  { unfold m2. words. reflexivity. }
  { lia. }
  { cbn. lia. }
  { exact alloc_caches_fit. }
  change (Z.of_nat (List.length alloc_caches)) with 6 in Hframe3.
  assert (Hkeep : forall p, address <= p -> p + 8 <= address + 56 ->
                            word_at m3 p = word_at m2 p).
  { intros p Hp1 Hp2. apply word_at_ext. intros q Hq.
    apply Hframe3; bounds. }
  exists m3. split.
  - unfold region_init. rewrite Haddr, Z.eqb_refl.
    change (negb true) with false. cbv iota zeta.
    change (u64 (u64 (sizeof_region + PAGE_SIZE) / PAGE_SIZE * PAGE_SIZE))
      with PAGE_SIZE.
    rewrite land_PAGE_MASK by exact Hsize. rewrite <- Hsz, Z.eqb_refl.
    change (Z.of_nat (List.length alloc_caches)) with 6.
    destruct (Z.ltb_spec size PAGE_SIZE) as [? | _];
      [unfold PAGE_SIZE in *; lia |].
    destruct (Z.leb_spec (size / PAGE_SIZE) 6) as [? | _]; [lia |].
    change (negb true || false || false) with false. cbv iota.
    change 6 with (Z.of_nat (List.length alloc_caches)) at 1.
    rewrite (bind_Ok _ _ m m1 true Hrun1).
    change (negb true) with false. cbv iota.
    run1. run1. run1. run1.
    fold m2. rewrite (bind_Ok _ _ m2 m3 tt Hrun3). reflexivity.
  - split.
    { rewrite Hkeep by bounds. unfold m2. words.
      apply u64_small. exact Hsize. }
    split. { rewrite Hkeep by bounds. unfold m2. words. reflexivity. }
    split. { rewrite Hkeep by bounds. unfold m2. words. reflexivity. }
    split. { rewrite Hc3. reflexivity. }
    split. { rewrite Hkeep by bounds. unfold m2. words. exact Hhs. }
    split. { rewrite Hkeep by bounds. unfold m2. words. exact Hcs. }
    split. { rewrite Hkeep by bounds. unfold m2. words. exact Hhb. }
    split. { rewrite Hkeep by bounds. unfold m2. words. exact Hcb. }
    split. { intros j ac Hj. apply (Hready j ac Hj). }
    split. { rewrite Hb3. unfold m2. autorewrite with shape. exact Hb1. }
    split. { rewrite Hs3. unfold m2. autorewrite with shape. exact Hs1. }
    intros q Hq. unfold sizeof_written_header in Hq.
    change (Z.of_nat (List.length alloc_caches)) with 6 in Hq.
    rewrite Hframe3 by bounds.
    unfold m2. rewrite !byte_at_poke_le.
    repeat match goal with
           | |- context [(?a <=? ?b) && (?c <? ?d)] =>
               destruct (Z.leb_spec a b), (Z.ltb_spec c d); simpl;
                 try bounds
           end.
    all: apply Hframe1; bounds.
Qed.

(** X12: on a page-aligned address, with a size that is a multiple of the
    page size and has more pages than there are preconfigured caches, and
    with the header inside the mapping, [region_init] returns the address;
    it records [size], puts [pages] and [free_page] on page 1, counts six
    caches and leaves each descriptor with its sizes, its object count and
    three empty slab lists; and it writes nothing past the cache
    descriptors: the bitmaps and the data pages keep whatever they held. *)
Theorem region_init_accepts (address size : Z) (m : mapping) :
  Z.land address PAGE_MASK = address ->
  0 <= size < wordsize -> size mod PAGE_SIZE = 0 ->
  Z.of_nat (List.length alloc_caches) < size / PAGE_SIZE ->
  covers m address sizeof_region ->
  exists m',
    region_init address size m = Ok address m'
    /\ word_at m' (region_size address) = size
    /\ word_at m' (region_pages address) = PAGE_SIZE
    /\ word_at m' (region_free_page address) = PAGE_SIZE
    /\ word_at m' (region_caches_count address)
       = Z.of_nat (List.length alloc_caches)
    /\ (forall (j : nat) (ac : alloc_cache),
           alloc_caches !! j = Some ac ->
           cache_ready m' (region_caches_cache address (Z.of_nat j)) ac)
    /\ same_outside address sizeof_written_header m m'.
Proof.
  intros Haddr Hsize Hmod Hpages Hcov.
  destruct (region_init_run address size m Haddr Hsize Hmod Hpages Hcov)
    as (m' & Hrun & H1 & H2 & H3 & H4 & _ & _ & _ & _ & H5 & H6).
  exists m'. repeat (split; [assumption |]). assumption.
Qed.

Lemma region_init_accepts_witness :
  exists m',
    region_init R0 twenty_pages fresh = Ok R0 m'
    /\ word_at m' (region_size R0) = twenty_pages
    /\ word_at m' (region_pages R0) = PAGE_SIZE
    /\ word_at m' (region_free_page R0) = PAGE_SIZE
    /\ word_at m' (region_caches_count R0)
       = Z.of_nat (List.length alloc_caches)
    /\ (forall (j : nat) (ac : alloc_cache),
           alloc_caches !! j = Some ac ->
           cache_ready m' (region_caches_cache R0 (Z.of_nat j)) ac)
    /\ same_outside R0 sizeof_written_header fresh m'.
Proof.
  apply (region_init_accepts R0 twenty_pages fresh).
  - reflexivity.
  - split; [discriminate | reflexivity].
  - reflexivity.
  - reflexivity.
  - split; vm_compute; discriminate.
Defined.

(** X13: where [region_init] puts the bitmaps.  When the recorded bitmap
    size [b] is below the room left in the first page, the heap bitmap and
    the caches bitmap lie back to back at the end of the first page, after
    the header.  Otherwise the heap bitmap starts [bitmap_tail_pages] pages
    before the end of the region and the caches bitmap a quarter of that
    distance before the end, so that the [b] bytes recorded for the caches
    bitmap reach beyond the end of the region. *)
Theorem region_init_bitmap_placement (address size : Z) (m : mapping) :
  Z.land address PAGE_MASK = address ->
  0 <= size < wordsize -> size mod PAGE_SIZE = 0 ->
  Z.of_nat (List.length alloc_caches) < size / PAGE_SIZE ->
  covers m address sizeof_region ->
  exists m',
    region_init address size m = Ok address m'
    /\ let b := bitmap_bytes size in
       let heap_bits := word_at m' (region_heap_bitset_bits address) in
       let cache_bits := word_at m' (region_caches_bitset_bits address) in
       word_at m' (region_heap_bitset_size address) = b
       /\ word_at m' (region_caches_bitset_size address) = b
       /\ (b < unused_space ->
           sizeof_region <= heap_bits
           /\ heap_bits + b = cache_bits
           /\ cache_bits + b = PAGE_SIZE)
       /\ (unused_space <= b ->
           heap_bits = size - PAGE_SIZE * bitmap_tail_pages size
           /\ cache_bits = size - PAGE_SIZE * bitmap_tail_pages size / 4
           /\ heap_bits + b <= cache_bits
           /\ size < cache_bits + b).
Proof.
  intros Haddr Hsize Hmod Hpages Hcov.
  destruct (region_init_run address size m Haddr Hsize Hmod Hpages Hcov)
    as (m' & Hrun & _ & _ & _ & _ & Hhs & Hcs & Hhb & Hcb & _ & _).
  exists m'. split; [exact Hrun |].
  cbv zeta. split; [exact Hhs |]. split; [exact Hcs |].
  rewrite Hhb, Hcb.
  change unused_space with 1136 in *.
  destruct (Z.ltb_spec (bitmap_bytes size) 1136) as [Hfit | Hbig].
  - split; [| intros; lia].
    intros _. unfold sizeof_region, sizeof_cache, PAGE_SIZE. lia.
  - split; [intros; lia |].
    intros _.
    destruct (bitmap_tail_pages_small size Hsize Hbig) as (Hbp1 & Hbp6 & Hbpu).
    unfold bitmap_tail_pages in *.
    set (bm := bitmap_bytes size) in *.
    pose proof (Z.div_mod (2 * bm + (PAGE_SIZE - 1)) PAGE_SIZE
                  ltac:(discriminate)) as Hdm.
    pose proof (Z.mod_pos_bound (2 * bm + (PAGE_SIZE - 1)) PAGE_SIZE
                  ltac:(reflexivity)) as Hmb.
    set (bp := (2 * bm + (PAGE_SIZE - 1)) / PAGE_SIZE) in *.
    assert (E4 : PAGE_SIZE * bp / 4 = 1024 * bp).
    { unfold PAGE_SIZE. replace (4096 * bp) with (1024 * bp * 4) by lia.
      apply Z.div_mul. lia. }
    rewrite E4. unfold PAGE_SIZE in *.
    split; [reflexivity |]. split; [reflexivity |]. lia.
Qed.

Lemma region_init_bitmap_placement_witness :
  (exists m',
    region_init R0 twenty_pages fresh = Ok R0 m'
    /\ let b := bitmap_bytes twenty_pages in
       let heap_bits := word_at m' (region_heap_bitset_bits R0) in
       let cache_bits := word_at m' (region_caches_bitset_bits R0) in
       word_at m' (region_heap_bitset_size R0) = b
       /\ word_at m' (region_caches_bitset_size R0) = b
       /\ (b < unused_space ->
           sizeof_region <= heap_bits
           /\ heap_bits + b = cache_bits
           /\ cache_bits + b = PAGE_SIZE)
       /\ (unused_space <= b ->
           heap_bits = twenty_pages - PAGE_SIZE * bitmap_tail_pages twenty_pages
           /\ cache_bits
              = twenty_pages - PAGE_SIZE * bitmap_tail_pages twenty_pages / 4
           /\ heap_bits + b <= cache_bits
           /\ twenty_pages < cache_bits + b))
  /\ bitmap_bytes twenty_pages < unused_space
  /\ unused_space <= bitmap_bytes (2000 * PAGE_SIZE).
Proof.
  split; [| split; [reflexivity | discriminate]].
  apply (region_init_bitmap_placement R0 twenty_pages fresh).
  - reflexivity.
  - split; [discriminate | reflexivity].
  - reflexivity.
  - reflexivity.
  - split; vm_compute; discriminate.
Defined.

(** ** allocate_slab *)




Lemma byte_at_peek (m : mapping) (p : Z) : peek_le 1 m p = byte_at m p.
Proof. cbn [peek_le]. lia. Qed.

Lemma byte_at_ext_le (n : nat) (m : mapping) (p v q : Z) :
  q < p \/ p + Z.of_nat n <= q ->
  byte_at (poke_le n m p v) q = byte_at m q.
Proof.
  intros H. rewrite byte_at_poke_le.
  destruct (Z.leb_spec p q), (Z.ltb_spec q (p + Z.of_nat n));
    simpl; try reflexivity; lia.
Qed.

Lemma byte_at_fill_other (n : nat) (m : mapping) (p v q : Z) :
  q < p \/ p + Z.of_nat n <= q ->
  byte_at (fill n m p v) q = byte_at m q.
Proof.
  intros H. rewrite byte_at_fill.
  destruct (Z.leb_spec p q), (Z.ltb_spec q (p + Z.of_nat n));
    simpl; try reflexivity; lia.
Qed.


Ltac bytes :=
  repeat first
    [ rewrite byte_at_ext_le by bounds
    | rewrite byte_at_fill_other by bounds
    | rewrite byte_at_poke_list_other by bounds ].

Lemma assert_load (ndebug : bool) (p : Z) (f : Z -> bool) (m : mapping) :
  covers m p 8 -> f (word_at m p) = true ->
  assert ndebug (v <- load64 p ;; ret (f v)) m = Ok tt m.
Proof.
  intros Hcov Hf. apply assert_passes; [readonly |].
  rewrite (bind_Ok _ _ m m _ (load64_run m p Hcov)).
  simpl. rewrite Hf. reflexivity.
Qed.







(** ** cache_alloc *)

Lemma assert_ret (ndebug b : bool) (m : mapping) :
  b = true -> assert ndebug (ret b) m = Ok tt m.
Proof.
  intros ->. apply assert_passes; [apply readonly_ret | reflexivity].
Qed.

Lemma same_outside_two (p : Z) (m : mapping) (v w : Z) :
  same_outside p 16 m (poke_le 8 (poke_le 8 m (p + 8) v) p w).
Proof.
  split; [autorewrite with shape; reflexivity |].
  split; [autorewrite with shape; reflexivity |].
  intros q Hq. rewrite !byte_at_ext_le by (simpl Z.of_nat; lia).
  reflexivity.
Qed.

(** X16: [cache_alloc] does not look whether the free list of a partial
    slab is empty.  When the slab at the head of the partial list has the
    head 0 and a count other than 1, [cache_alloc] returns 0, takes one
    off the count, and stores as the new head the first word of the region,
    which is [region.size]; nothing else changes. *)
Theorem cache_alloc_empty_list (ndebug : bool) (fuel : nat)
    (region index size : Z) (m : mapping) (slab_offset fc sz : Z) :
  let cache := region_caches_cache region index in
  let slab := region + slab_offset in
  0 < region -> 0 <= index < sizeof_caches_count ->
  sizeof_region <= slab_offset ->
  region + slab_offset + sizeof_slab <= wordsize ->
  covers m region (slab_offset + sizeof_slab) ->
  word_at m (list_list (cache_partial_slabs cache)) = slab_offset ->
  word_at m (list_count (slab_free_objects slab)) = fc -> fc <> 1 ->
  word_at m (list_list (slab_free_objects slab)) = 0 ->
  word_at m (region_size region) = sz ->
  exists m',
    cache_alloc ndebug fuel region index size m = Ok 0 m'
    /\ word_at m' (list_list (slab_free_objects slab)) = u64 sz
    /\ word_at m' (list_count (slab_free_objects slab)) = u64 (fc - 1)
    /\ same_outside (slab_free_objects slab) 16 m m'.
Proof.
  intros cache slab Hregion Hindex Hoff Hend Hcov Hpl Hfc Hne Hhead Hsz.
  unfold sizeof_caches_count in Hindex. unfold region_size in Hsz.
  assert (Eslab : swizzle region slab_offset = slab).
  { apply swizzle_exact; unfold sizeof_region, sizeof_cache, sizeof_slab,
      wordsize in *; lia. }
  assert (Ezero : swizzle region 0 = region).
  { rewrite swizzle_exact; unfold sizeof_region, sizeof_cache, sizeof_slab,
      wordsize in *; lia. }
  exists (poke_le 8 (poke_le 8 m (list_count (slab_free_objects slab))
                       (u64 (fc - 1)))
            (list_list (slab_free_objects slab)) sz).
  split.
  - unfold cache_alloc. fold cache.
    rewrite (bind_Ok _ _ m m tt
               (assert_region ndebug region m ltac:(lia))).
    rewrite (bind_Ok _ _ m m tt
               (assert_ret ndebug (index <? sizeof_caches_count) m
                  ltac:(apply Z.ltb_lt; unfold sizeof_caches_count; lia))).
    run1. rewrite Hpl.
    destruct (Z.eqb_spec slab_offset 0) as [? | _];
      [unfold sizeof_region, sizeof_cache in *; lia |].
    change (negb false) with true. cbv iota.
    rewrite Eslab.
    rewrite (bind_Ok _ _ m m (Some slab)).
    2:{ run1. rewrite Hfc.
        destruct (Z.eqb_spec fc 1) as [? | _]; [contradiction |].
        reflexivity. }
    run1. rewrite Hfc. run1. run1. words. rewrite Hhead, Ezero.
    run1. words. rewrite Hsz. run1. reflexivity.
  - split; [words; reflexivity |].
    split; [words; apply u64_u64 |].
    apply (same_outside_two (slab_free_objects slab)).
Qed.

Lemma cache_alloc_empty_list_witness :
  exists m',
    cache_alloc false fuel0 R0 0 8 (after_alloc 8) = Ok 0 m'
    /\ word_at m' (list_list (slab_free_objects (R0 + 4096))) = u64 81920
    /\ word_at m' (list_count (slab_free_objects (R0 + 4096))) = u64 (504 - 1)
    /\ same_outside (slab_free_objects (R0 + 4096)) 16 (after_alloc 8) m'.
Proof.
  apply (cache_alloc_empty_list false fuel0 R0 0 8 (after_alloc 8)
           4096 504 81920);
    try (vm_compute; reflexivity); try discriminate.
  - split; [discriminate | reflexivity].
  - split; vm_compute; discriminate.
Defined.

(** ** Allocation and release through the slab lists *)

Lemma s64_small (x : Z) : 0 <= x < 2 ^ 63 -> s64 x = x.
Proof.
  intros H. unfold s64, wordsize. rewrite Z.mod_small by lia.
  destruct (Z.ltb_spec x (2 ^ 63)); [reflexivity | lia].
Qed.

(** one access of a run, after reassociating the binds in front of it *)
Ltac run := rewrite ?bind_bind; run1.

Lemma byte_at_poke_le_other (n : nat) (m : mapping) (p v q : Z) :
  q < p \/ p + Z.of_nat n <= q ->
  byte_at (poke_le n m p v) q = byte_at m q.
Proof.
  intros H. rewrite byte_at_poke_le.
  destruct (Z.leb_spec p q), (Z.ltb_spec q (p + Z.of_nat n));
    simpl; try reflexivity; lia.
Qed.

(** [object & PAGE_MASK] is the start of the page that holds the object *)
Lemma page_of_object (slab_offset object : Z) :
  0 <= slab_offset -> slab_offset mod PAGE_SIZE = 0 ->
  slab_offset <= object < slab_offset + PAGE_SIZE ->
  object < wordsize ->
  Z.land (u64 object) PAGE_MASK = slab_offset.
Proof.
  intros H0 Hal Hin Hw.
  rewrite (u64_small object) by lia.
  rewrite land_PAGE_MASK by lia.
  unfold PAGE_SIZE in *.
  pose proof (Z.div_mod slab_offset 4096 ltac:(lia)) as E.
  rewrite Hal in E.
  assert (object / 4096 = slab_offset / 4096); [| lia].
  symmetry. apply (Z.div_unique object 4096 (slab_offset / 4096)
                     (object - slab_offset)); lia.
Qed.

Lemma assert_load2 (ndebug : bool) (p q : Z) (f : Z -> Z -> bool)
    (m : mapping) :
  covers m p 8 -> covers m q 8 -> f (word_at m p) (word_at m q) = true ->
  assert ndebug (v <- load64 p ;; w <- load64 q ;; ret (f v w)) m = Ok tt m.
Proof.
  intros Hp Hq Hf. apply assert_passes; [readonly |].
  rewrite (bind_Ok _ _ m m _ (load64_run m p Hp)).
  rewrite (bind_Ok _ _ m m _ (load64_run m q Hq)).
  simpl. rewrite Hf. reflexivity.
Qed.

(** [cache_free] on the only allocated object of the head of the partial
    list *)
Lemma cache_free_run (ndebug : bool) (fuel : nat)
    (region index object slab_offset : Z) (m : mapping)
    (c pc nx fl fcnt : Z) :
  let cache := region_caches_cache region index in
  let slab := region + slab_offset in
  0 < region -> 0 <= index < sizeof_caches_count ->
  PAGE_SIZE <= slab_offset -> slab_offset mod PAGE_SIZE = 0 ->
  slab_offset + sizeof_slab <= object ->
  object + 8 <= slab_offset + PAGE_SIZE ->
  region + slab_offset + PAGE_SIZE <= wordsize ->
  covers m region (slab_offset + PAGE_SIZE) ->
  word_at m (slab_cache slab) = 64 + sizeof_cache * index ->
  word_at m (list_list (slab_free_objects slab)) = 0 ->
  word_at m (list_count (slab_free_objects slab)) = c - 1 ->
  word_at m (cache_object_count cache) = c -> 1 <= c < wordsize ->
  word_at m (list_list (cache_partial_slabs cache)) = slab_offset ->
  word_at m (list_count (cache_partial_slabs cache)) = pc ->
  word_at m (slab_next slab) = nx -> 0 <= nx < wordsize ->
  (u64 (pc - 1) = 0 <-> nx = 0) ->
  word_at m (list_list (cache_free_slabs cache)) = fl ->
  word_at m (list_count (cache_free_slabs cache)) = fcnt ->
  exists m',
    cache_free ndebug fuel region index object m = Ok tt m'
    /\ base m' = base m /\ msize m' = msize m
    /\ word_at m' (region + object) = 0
    /\ word_at m' (list_list (slab_free_objects slab)) = object
    /\ word_at m' (list_count (slab_free_objects slab)) = c
    /\ word_at m' (list_list (cache_partial_slabs cache)) = nx
    /\ word_at m' (list_count (cache_partial_slabs cache)) = u64 (pc - 1)
    /\ word_at m' (slab_next slab) = u64 fl
    /\ word_at m' (list_list (cache_free_slabs cache)) = slab_offset
    /\ word_at m' (list_count (cache_free_slabs cache)) = u64 (fcnt + 1)
    /\ forall q,
         q < region + object \/ region + object + 8 <= q ->
         q < slab_next slab \/ slab_next slab + 8 <= q ->
         q < slab_free_objects slab \/ slab_free_objects slab + 16 <= q ->
         q < cache_partial_slabs cache \/ cache_free_slabs cache + 16 <= q ->
         byte_at m' q = byte_at m q.
Proof.
  intros cache slab Hregion Hindex Hoff Hal Hlo Hhi Hend Hcov Hsc Hhead Hcnt
         Hc Hcr Hpl Hpc Hnx Hnxr Hlink Hfl Hfc.
  unfold sizeof_caches_count in Hindex.
  assert (Epage : Z.land (u64 object) PAGE_MASK = slab_offset).
  { apply page_of_object; unfold PAGE_SIZE, sizeof_slab, wordsize in *; lia. }
  assert (Eslab : swizzle region slab_offset = slab).
  { apply swizzle_exact; unfold PAGE_SIZE, wordsize in *; lia. }
  assert (Eobj : swizzle region object = region + object).
  { apply swizzle_exact; unfold PAGE_SIZE, sizeof_slab, wordsize in *; lia. }
  assert (Eu : u64 object = object).
  { apply u64_small; unfold PAGE_SIZE, sizeof_slab, wordsize in *; lia. }
  assert (Ecache : swizzle region (64 + sizeof_cache * index) = u64 cache).
  { unfold cache, region_caches_cache.
    rewrite swizzle_exact, u64_small;
      unfold PAGE_SIZE, sizeof_cache, wordsize in *; lia. }
  eexists. split.
  - unfold cache_free. fold cache. rewrite Epage, Eslab.
    rewrite (bind_Ok _ _ m m tt
               (assert_region ndebug region m ltac:(lia))).
    rewrite (bind_Ok _ _ m m tt
               (assert_ret ndebug (index <? sizeof_caches_count) m
                  ltac:(apply Z.ltb_lt; unfold sizeof_caches_count; lia))).
    rewrite (bind_Ok _ _ m m tt
               (assert_load ndebug (slab_cache slab)
                  (fun c0 => swizzle region c0 =? u64 cache) m
                  ltac:(unfold slab; bounds)
                  ltac:(rewrite Hsc, Ecache; apply Z.eqb_refl))).
    run. rewrite Hhead.
    rewrite (bind_Ok _ _ m m tt).
    2:{ destruct fuel; reflexivity. }
    run. rewrite Hhead, Eobj, Eu.
    run. run. run. words. rewrite Hcnt.
    replace (c - 1 + 1) with c by lia.
    rewrite (u64_small c) by lia.
    run. run. words. rewrite (u64_small c) by lia.
    run. words. rewrite Hc. rewrite Z.eqb_refl.
    change (negb true) with false. cbv iota.
    run. words. rewrite Hpl. rewrite Z.eqb_refl. cbv iota.
    run. words. rewrite Hpc.
    run. run. words. rewrite Hnx.
    run.
    rewrite ?bind_bind.
    lazymatch goal with
    | |- bind _ _ ?mm = _ =>
        rewrite (bind_Ok _ _ mm mm tt
               (assert_load2 ndebug (list_count (cache_partial_slabs cache))
                  (list_list (cache_partial_slabs cache))
                  (fun c0 l => Bool.eqb (c0 =? 0) (l =? 0)) mm
                  ltac:(unfold cache, slab; bounds)
                  ltac:(unfold cache, slab; bounds)
                  ltac:(words; rewrite u64_u64, (u64_small nx) by lia;
                        destruct (Z.eqb_spec (u64 (pc - 1)) 0) as [E1 | E1],
                                 (Z.eqb_spec nx 0) as [E2 | E2];
                        try reflexivity; tauto)))
    end.
    cbv beta.
    run. words. rewrite Hfl.
    run. run. words. rewrite Hfc.
    run. apply store64_run. bounds.
  - split; [autorewrite with shape; reflexivity |].
    split; [autorewrite with shape; reflexivity |].
    split; [words; reflexivity |].
    split; [words; exact Eu |].
    split; [words; apply u64_small; lia |].
    split; [words; apply u64_small; lia |].
    split; [words; apply u64_u64 |].
    split; [words; reflexivity |].
    split; [words; apply u64_small; unfold PAGE_SIZE, wordsize in *; lia |].
    split; [words; apply u64_u64 |].
    intros q Q1 Q2 Q3 Q4.
    rewrite !byte_at_poke_le_other; [reflexivity | ..];
      unfold cache, slab in *; fields; lia.
Qed.

(** [cache_alloc] with an empty partial list and a slab on the free list *)
Lemma cache_alloc_free_slab_run (ndebug : bool) (fuel : nat)
    (region index size slab_offset : Z) (m : mapping)
    (pc fcnt nx c o nxo : Z) :
  let cache := region_caches_cache region index in
  let slab := region + slab_offset in
  0 < region -> 0 <= index < sizeof_caches_count ->
  PAGE_SIZE <= slab_offset ->
  slab_offset + sizeof_slab <= o -> o + 8 <= slab_offset + PAGE_SIZE ->
  slab_offset + PAGE_SIZE <= 2 ^ 63 ->
  region + slab_offset + PAGE_SIZE <= wordsize ->
  covers m region (slab_offset + PAGE_SIZE) ->
  word_at m (list_list (cache_partial_slabs cache)) = 0 ->
  word_at m (list_count (cache_partial_slabs cache)) = pc ->
  word_at m (list_list (cache_free_slabs cache)) = slab_offset ->
  word_at m (list_count (cache_free_slabs cache)) = fcnt -> fcnt <> 0 ->
  word_at m (slab_next slab) = nx ->
  word_at m (list_count (slab_free_objects slab)) = c -> c <> 1 ->
  word_at m (list_list (slab_free_objects slab)) = o ->
  word_at m (region + o) = nxo ->
  exists m',
    cache_alloc ndebug fuel region index size m = Ok o m'
    /\ base m' = base m /\ msize m' = msize m
    /\ word_at m' (list_list (cache_partial_slabs cache)) = slab_offset
    /\ word_at m' (list_count (cache_partial_slabs cache)) = u64 (pc + 1)
    /\ word_at m' (list_list (cache_free_slabs cache)) = u64 nx
    /\ word_at m' (list_count (cache_free_slabs cache)) = u64 (fcnt - 1)
    /\ word_at m' (slab_list slab) = 64 + sizeof_cache * index + 32
    /\ word_at m' (slab_next slab) = 0
    /\ word_at m' (list_count (slab_free_objects slab)) = u64 (c - 1)
    /\ word_at m' (list_list (slab_free_objects slab)) = u64 nxo
    /\ forall q,
         q < slab_list slab \/ slab_next slab + 8 <= q ->
         q < slab_free_objects slab \/ slab_free_objects slab + 16 <= q ->
         q < cache_partial_slabs cache \/ cache_free_slabs cache + 16 <= q ->
         byte_at m' q = byte_at m q.
Proof.
  intros cache slab Hregion Hindex Hoff Hlo Hhi H63 Hend Hcov Hpl Hpc Hfl Hfc
         Hfc0 Hnx Hc Hc1 Hhead Hobj.
  unfold sizeof_caches_count in Hindex.
  assert (Eslab : swizzle region slab_offset = slab).
  { apply swizzle_exact; unfold PAGE_SIZE, wordsize in *; lia. }
  assert (Eobj : swizzle region o = region + o).
  { apply swizzle_exact; unfold PAGE_SIZE, sizeof_slab, wordsize in *; lia. }
  assert (Epartial : unswizzle region (cache_partial_slabs cache)
                     = 64 + sizeof_cache * index + 32).
  { unfold cache, cache_partial_slabs, region_caches_cache.
    rewrite unswizzle_exact; unfold wordsize, sizeof_cache, PAGE_SIZE in *;
      lia. }
  eexists. split.
  - unfold cache_alloc. fold cache.
    rewrite (bind_Ok _ _ m m tt
               (assert_region ndebug region m ltac:(lia))).
    rewrite (bind_Ok _ _ m m tt
               (assert_ret ndebug (index <? sizeof_caches_count) m
                  ltac:(apply Z.ltb_lt; unfold sizeof_caches_count; lia))).
    run1. rewrite Hpl. change (negb (0 =? 0)) with false. cbv iota.
    run. rewrite Hfl.
    destruct (Z.eqb_spec slab_offset 0) as [? | _];
      [unfold PAGE_SIZE in *; lia |].
    rewrite ?bind_bind.
    rewrite (bind_Ok _ _ m m true eq_refl).
    change (negb true) with false. cbv iota. rewrite ?bind_bind.
    rewrite (bind_Ok _ _ m m tt
               (assert_load2 ndebug (list_count (cache_free_slabs cache))
                  (list_list (cache_free_slabs cache))
                  (fun c0 l => negb (c0 =? 0) && negb (l =? 0)) m
                  ltac:(unfold cache; bounds) ltac:(unfold cache; bounds)
                  ltac:(rewrite Hfc, Hfl;
                        destruct (Z.eqb_spec fcnt 0) as [? | _];
                        [contradiction |];
                        destruct (Z.eqb_spec slab_offset 0) as [? | _];
                        [unfold PAGE_SIZE in *; lia | reflexivity]))).
    cbv beta.
    run. rewrite Hfl. rewrite Eslab.
    run. rewrite Hfc.
    run. run. words. rewrite Hnx.
    run. run. words. rewrite Hc.
    destruct (Z.eqb_spec c 1) as [? | _]; [contradiction |].
    run. run. words. rewrite Hpl.
    run. run. words. rewrite Hpc.
    run. run.
    rewrite (bind_Ok _ _ _ _ (Some slab) eq_refl).
    run. words. rewrite Hc.
    run. run. words. rewrite Hhead. rewrite Eobj.
    run. words. rewrite Hobj.
    run.
    unfold ret. rewrite (s64_small o) by (unfold PAGE_SIZE, sizeof_slab in *; lia).
    reflexivity.
  - split; [autorewrite with shape; reflexivity |].
    split; [autorewrite with shape; reflexivity |].
    split; [words; apply u64_small; unfold wordsize, PAGE_SIZE in *; lia |].
    split; [words; apply u64_u64 |].
    split; [words; reflexivity |].
    split; [words; apply u64_u64 |].
    split; [words; rewrite Epartial; apply u64_small;
            unfold wordsize, sizeof_cache; lia |].
    split; [words; reflexivity |].
    split; [words; apply u64_u64 |].
    split; [words; reflexivity |].
    intros q Q1 Q2 Q3.
    rewrite !byte_at_poke_le_other; [reflexivity | ..];
      unfold cache, slab in *; fields; lia.
Qed.




(** X18: freeing the one allocated object of a slab.  When the slab of
    [object] belongs to the cache, is the head of its partial list, has an
    empty free list and one object less than the cache's [object_count]
    counted free, [cache_free] stores 0 in the object, makes it the head
    of the slab's free list, counts [c] free objects, takes the slab off
    the partial list and puts it at the head of the free slabs.  The
    [list] field of the slab is among the bytes left as they were. *)
Theorem cache_free_returns_slab (ndebug : bool) (fuel : nat)
    (region index object slab_offset : Z) (m : mapping)
    (c pc nx fl fcnt : Z) :
  let cache := region_caches_cache region index in
  let slab := region + slab_offset in
  0 < region -> 0 <= index < sizeof_caches_count ->
  PAGE_SIZE <= slab_offset -> slab_offset mod PAGE_SIZE = 0 ->
  slab_offset + sizeof_slab <= object ->
  object + 8 <= slab_offset + PAGE_SIZE ->
  region + slab_offset + PAGE_SIZE <= wordsize ->
  covers m region (slab_offset + PAGE_SIZE) ->
  word_at m (slab_cache slab) = 64 + sizeof_cache * index ->
  word_at m (list_list (slab_free_objects slab)) = 0 ->
  word_at m (list_count (slab_free_objects slab)) = c - 1 ->
  word_at m (cache_object_count cache) = c -> 1 <= c < wordsize ->
  word_at m (list_list (cache_partial_slabs cache)) = slab_offset ->
  word_at m (list_count (cache_partial_slabs cache)) = pc ->
  word_at m (slab_next slab) = nx -> 0 <= nx < wordsize ->
  (u64 (pc - 1) = 0 <-> nx = 0) ->
  word_at m (list_list (cache_free_slabs cache)) = fl ->
  word_at m (list_count (cache_free_slabs cache)) = fcnt ->
  exists m',
    cache_free ndebug fuel region index object m = Ok tt m'
    /\ base m' = base m /\ msize m' = msize m
    /\ word_at m' (region + object) = 0
    /\ word_at m' (list_list (slab_free_objects slab)) = object
    /\ word_at m' (list_count (slab_free_objects slab)) = c
    /\ word_at m' (list_list (cache_partial_slabs cache)) = nx
    /\ word_at m' (list_count (cache_partial_slabs cache)) = u64 (pc - 1)
    /\ word_at m' (slab_next slab) = u64 fl
    /\ word_at m' (list_list (cache_free_slabs cache)) = slab_offset
    /\ word_at m' (list_count (cache_free_slabs cache)) = u64 (fcnt + 1)
    /\ forall q,
         q < region + object \/ region + object + 8 <= q ->
         q < slab_next slab \/ slab_next slab + 8 <= q ->
         q < slab_free_objects slab \/ slab_free_objects slab + 16 <= q ->
         q < cache_partial_slabs cache \/ cache_free_slabs cache + 16 <= q ->
         byte_at m' q = byte_at m q.
Proof. apply cache_free_run. Qed.

Lemma cache_free_returns_slab_witness :
  exists m',
    cache_free false fuel0 R0 0 4160 (after_alloc 8) = Ok tt m'
    /\ base m' = base (after_alloc 8) /\ msize m' = msize (after_alloc 8)
    /\ word_at m' (R0 + 4160) = 0
    /\ word_at m' (list_list (slab_free_objects (R0 + 4096))) = 4160
    /\ word_at m' (list_count (slab_free_objects (R0 + 4096))) = 505
    /\ word_at m' (list_list (cache_partial_slabs (region_caches_cache R0 0)))
       = 0
    /\ word_at m' (list_count (cache_partial_slabs (region_caches_cache R0 0)))
       = u64 (1 - 1)
    /\ word_at m' (slab_next (R0 + 4096)) = u64 0
    /\ word_at m' (list_list (cache_free_slabs (region_caches_cache R0 0)))
       = 4096
    /\ word_at m' (list_count (cache_free_slabs (region_caches_cache R0 0)))
       = u64 (0 + 1)
    /\ forall q,
         q < R0 + 4160 \/ R0 + 4160 + 8 <= q ->
         q < slab_next (R0 + 4096) \/ slab_next (R0 + 4096) + 8 <= q ->
         q < slab_free_objects (R0 + 4096)
         \/ slab_free_objects (R0 + 4096) + 16 <= q ->
         q < cache_partial_slabs (region_caches_cache R0 0)
         \/ cache_free_slabs (region_caches_cache R0 0) + 16 <= q ->
         byte_at m' q = byte_at (after_alloc 8) q.
Proof.
  apply (cache_free_returns_slab false fuel0 R0 0 4160 4096 (after_alloc 8)
           505 1 0 0 0);
    try (vm_compute; reflexivity); try discriminate.
  - split; [discriminate | reflexivity].
  - split; vm_compute; discriminate.
  - split; [discriminate | reflexivity].
  - split; [discriminate | reflexivity].
  - split; reflexivity.
Defined.

(** X19: reuse of a free slab.  When the partial list of the cache is
    empty and its free list starts at a slab with more than one free
    object, [cache_alloc] allocates no page: it moves that slab from the
    free list to the partial list and returns the head [o] of the slab's
    free list, whose first word becomes the new head. *)
Theorem cache_alloc_reuses_free_slab (ndebug : bool) (fuel : nat)
    (region index size slab_offset : Z) (m : mapping)
    (pc fcnt nx c o nxo : Z) :
  let cache := region_caches_cache region index in
  let slab := region + slab_offset in
  0 < region -> 0 <= index < sizeof_caches_count ->
  PAGE_SIZE <= slab_offset ->
  slab_offset + sizeof_slab <= o -> o + 8 <= slab_offset + PAGE_SIZE ->
  slab_offset + PAGE_SIZE <= 2 ^ 63 ->
  region + slab_offset + PAGE_SIZE <= wordsize ->
  covers m region (slab_offset + PAGE_SIZE) ->
  word_at m (list_list (cache_partial_slabs cache)) = 0 ->
  word_at m (list_count (cache_partial_slabs cache)) = pc ->
  word_at m (list_list (cache_free_slabs cache)) = slab_offset ->
  word_at m (list_count (cache_free_slabs cache)) = fcnt -> fcnt <> 0 ->
  word_at m (slab_next slab) = nx ->
  word_at m (list_count (slab_free_objects slab)) = c -> c <> 1 ->
  word_at m (list_list (slab_free_objects slab)) = o ->
  word_at m (region + o) = nxo ->
  exists m',
    cache_alloc ndebug fuel region index size m = Ok o m'
    /\ base m' = base m /\ msize m' = msize m
    /\ word_at m' (list_list (cache_partial_slabs cache)) = slab_offset
    /\ word_at m' (list_count (cache_partial_slabs cache)) = u64 (pc + 1)
    /\ word_at m' (list_list (cache_free_slabs cache)) = u64 nx
    /\ word_at m' (list_count (cache_free_slabs cache)) = u64 (fcnt - 1)
    /\ word_at m' (slab_list slab) = 64 + sizeof_cache * index + 32
    /\ word_at m' (slab_next slab) = 0
    /\ word_at m' (list_count (slab_free_objects slab)) = u64 (c - 1)
    /\ word_at m' (list_list (slab_free_objects slab)) = u64 nxo
    /\ forall q,
         q < slab_list slab \/ slab_next slab + 8 <= q ->
         q < slab_free_objects slab \/ slab_free_objects slab + 16 <= q ->
         q < cache_partial_slabs cache \/ cache_free_slabs cache + 16 <= q ->
         byte_at m' q = byte_at m q.
Proof. apply cache_alloc_free_slab_run. Qed.

Lemma cache_alloc_reuses_free_slab_witness :
  exists m',
    cache_alloc false fuel0 R0 0 8 slab_returned = Ok 4160 m'
    /\ base m' = base slab_returned /\ msize m' = msize slab_returned
    /\ word_at m' (list_list (cache_partial_slabs (region_caches_cache R0 0)))
       = 4096
    /\ word_at m' (list_count (cache_partial_slabs (region_caches_cache R0 0)))
       = u64 (0 + 1)
    /\ word_at m' (list_list (cache_free_slabs (region_caches_cache R0 0)))
       = u64 0
    /\ word_at m' (list_count (cache_free_slabs (region_caches_cache R0 0)))
       = u64 (1 - 1)
    /\ word_at m' (slab_list (R0 + 4096)) = 64 + sizeof_cache * 0 + 32
    /\ word_at m' (slab_next (R0 + 4096)) = 0
    /\ word_at m' (list_count (slab_free_objects (R0 + 4096)))
       = u64 (505 - 1)
    /\ word_at m' (list_list (slab_free_objects (R0 + 4096))) = u64 0
    /\ forall q,
         q < slab_list (R0 + 4096) \/ slab_next (R0 + 4096) + 8 <= q ->
         q < slab_free_objects (R0 + 4096)
         \/ slab_free_objects (R0 + 4096) + 16 <= q ->
         q < cache_partial_slabs (region_caches_cache R0 0)
         \/ cache_free_slabs (region_caches_cache R0 0) + 16 <= q ->
         byte_at m' q = byte_at slab_returned q.
Proof.
  apply (cache_alloc_reuses_free_slab false fuel0 R0 0 8 4096 slab_returned
           0 1 0 505 4160 0);
    try (vm_compute; reflexivity); try discriminate.
  - split; [discriminate | reflexivity].
  - split; vm_compute; discriminate.
Defined.


